(** * criterion.py: training losses (pixelwise, VGG perceptual, LPIPS)

    A shallow embedding of [src/criterion.py].

    Numbers.  Tensor entries are exact rationals ([Q]); rounding and
    non-finite *inputs* are outside the model.  Quotients are computed in
    [fval], which adds the IEEE special values to [Q].  The losses are
    computed without a bound on the size of a number: their formulas hold
    as stated, and where a statement depends on the size of the numbers
    (a loss is finite, or does not see a masked-out entry) it is made for
    images and mask weights between 0 and 1, the range the code assumes,
    where no float operation overflows.  [normalize_minus_one_to_one] takes
    tensors of any range: it is modelled with the largest finite number of
    the tensor's dtype, beyond which a result is an infinity.

    Tensors.  A tensor is a shape together with its entries in row-major
    order; binary operations broadcast the way torch does.

    Library code.  What torch, torchvision, lpips and [core.utils] provide
    and the file only calls (interpolation, the pretrained layers, the
    LPIPS network, [crop_boundary]) is collected in the class [External].
    Device placement ([.to(device)]) has no counterpart here, and
    [get_flow_smoothness_loss], which takes norms, is not embedded. *)

From Stdlib Require Import QArith Qminmax Qabs Lqa Lia ZArith.
From stdpp Require Import gmap strings list fin_maps.

(** ** Python results *)

Inductive exn :=
  | NotImplementedError | RuntimeError | IndexError | AttributeError | ValueError.

Inductive res (A : Type) :=
  | Ok (a : A)
  | Raise (e : exn).
Arguments Ok {A} a.
Arguments Raise {A} e.

#[global] Instance res_ret : MRet res := @Ok.
#[global] Instance res_bind : MBind res :=
  λ A B f m, match m with Ok a => f a | Raise e => Raise e end.
#[global] Instance res_fmap : FMap res :=
  λ A B f m, match m with Ok a => Ok (f a) | Raise e => Raise e end.

Definition of_option {A} (e : exn) (o : option A) : res A :=
  match o with Some a => Ok a | None => Raise e end.

Definition returns {A} (m : res A) : Prop := ∃ a, m = Ok a.

(** ** Numbers: rationals, and quotients that may leave them *)

Inductive fval :=
  | Fin (q : Q)
  | PInf
  | NInf
  | NaN.

Definition is_finite (v : fval) : bool :=
  match v with Fin _ => true | _ => false end.

(** What [a / 0.] is: the zero denominators of this file come from an exact
    cancellation or from an element count, so they are [+0.]. *)
Definition over_zero (a : Q) : fval :=
  if Qeq_bool a 0 then NaN else if Qle_bool 0 a then PInf else NInf.

Definition fdivQ (a b : Q) : fval :=
  if Qeq_bool b 0 then over_zero a else Fin (a / b).

Definition fneg (v : fval) : fval :=
  match v with Fin q => Fin (- q) | PInf => NInf | NInf => PInf | NaN => NaN end.

Definition fadd (u v : fval) : fval :=
  match u, v with
  | NaN, _ | _, NaN => NaN
  | Fin a, Fin b => Fin (a + b)
  | PInf, NInf | NInf, PInf => NaN
  | PInf, _ | _, PInf => PInf
  | NInf, _ | _, NInf => NInf
  end.

Definition fsub (u v : fval) : fval := fadd u (fneg v).

(** [s * v] for a finite factor [s]. *)
Definition fscale (s : Q) (v : fval) : fval :=
  match v with
  | Fin b => Fin (s * b)
  | PInf => over_zero s
  | NInf => fneg (over_zero s)
  | NaN => NaN
  end.

(** *** The range of a float type

    [fmax] is the largest finite number of the dtype
    ([torch.finfo(dtype).max]).  A finite result beyond it is an infinity;
    the results between [fmax] and the next number that would round to an
    infinity are counted with the infinities. *)
Definition overflow (fmax q : Q) : fval :=
  if Qle_bool q fmax then (if Qle_bool (- fmax) q then Fin q else NInf) else PInf.

Definition in_range (fmax : Q) (v : fval) : fval :=
  match v with Fin q => overflow fmax q | _ => v end.

(** [u / v] *)
Definition fdiv (u v : fval) : fval :=
  match u, v with
  | NaN, _ | _, NaN => NaN
  | Fin a, Fin b => fdivQ a b
  | Fin _, (PInf | NInf) => Fin 0
  | PInf, Fin b => if Qle_bool 0 b then PInf else NInf
  | NInf, Fin b => if Qle_bool 0 b then NInf else PInf
  | (PInf | NInf), (PInf | NInf) => NaN
  end.

(** The operations of a dtype with largest number [fmax]. *)
Definition rsub (fmax : Q) (u v : fval) : fval := in_range fmax (fsub u v).
Definition rscale (fmax s : Q) (v : fval) : fval := in_range fmax (fscale s v).
Definition rdiv (fmax : Q) (u v : fval) : fval := in_range fmax (fdiv u v).

(** [torch.finfo(torch.float32).max], (2 - 2^-23) * 2^127. *)
Definition float32_max : Q := 340282346638528859811704183484516925440.

(** Equality of computed values, up to the representation of a rational. *)
Definition feq (u v : fval) : Prop :=
  match u, v with
  | Fin a, Fin b => (a == b)%Q
  | PInf, PInf | NInf, NInf | NaN, NaN => True
  | _, _ => False
  end.

Definition Qsum (l : list Q) : Q := foldr Qplus 0%Q l.
Definition Qmin_list (x : Q) (l : list Q) : Q := foldr Qmin x l.
Definition Qmax_list (x : Q) (l : list Q) : Q := foldr Qmax x l.

(** ** Tensors *)

Record Tensor (A : Type) := mkTensor { shape : list nat; data : list A }.
Arguments mkTensor {A} shape data.
Arguments shape {A} t.
Arguments data {A} t.

Definition numel (s : list nat) : nat := foldr Nat.mul 1 s.

Definition wf {A} (t : Tensor A) : Prop := length (data t) = numel (shape t).

(** A 0-dimensional tensor. *)
Definition scalar {A} (v : A) : Tensor A := mkTensor [] [v].

(** [t.shape[i]] *)
Definition shape_at {A} (t : Tensor A) (i : nat) : res nat :=
  of_option IndexError (shape t !! i).

(** [t.shape[-2:]] *)
Definition last2 (s : list nat) : list nat := drop (length s - 2) s.

(** [t.item()]: torch refuses a tensor that has not exactly one entry with a
    RuntimeError (a ValueError before version 2.1). *)
Definition item {A} (t : Tensor A) : res A :=
  match data t with [v] => Ok v | _ => Raise RuntimeError end.

Definition tmap {A B} (f : A → B) (t : Tensor A) : Tensor B :=
  mkTensor (shape t) (f <$> data t).

(** *** Broadcasting *)

Definition pad_shape (r : nat) (s : list nat) : list nat :=
  replicate (r - length s) 1 ++ s.

Fixpoint bshape (s1 s2 : list nat) : option (list nat) :=
  match s1, s2 with
  | [], [] => Some []
  | a :: s1', b :: s2' =>
      r ← bshape s1' s2';
      if a =? b then Some (a :: r)
      else if a =? 1 then Some (b :: r)
      else if b =? 1 then Some (a :: r)
      else None
  | _, _ => None
  end.

Definition broadcast_shapes (s1 s2 : list nat) : option (list nat) :=
  let r := length s1 `max` length s2 in
  bshape (pad_shape r s1) (pad_shape r s2).

(** [k] consecutive blocks of [n] entries. *)
Fixpoint chunks {A} (n k : nat) (l : list A) : list (list A) :=
  match k with
  | 0 => []
  | S k' => take n l :: chunks n k' (drop n l)
  end.

(** Entries of a tensor of shape [s] viewed at shape [target] (same rank):
    a dimension of size 1 is repeated. *)
Fixpoint expand {A} (s target : list nat) (d : list A) : list A :=
  match s, target with
  | a :: s', b :: t' =>
      let rows := expand s' t' <$> chunks (numel s') a d in
      if a =? b then concat rows
      else concat (replicate b (concat rows))
  | _, _ => d
  end.

Definition broadcast_to {A} (t : Tensor A) (target : list nat) : list A :=
  expand (pad_shape (length target) (shape t)) target (data t).

(** An elementwise binary operation; shapes that do not broadcast raise. *)
Definition binop {A B C} (f : A → B → C) (t1 : Tensor A) (t2 : Tensor B)
  : res (Tensor C) :=
  match broadcast_shapes (shape t1) (shape t2) with
  | Some s => Ok (mkTensor s (zip_with f (broadcast_to t1 s) (broadcast_to t2 s)))
  | None => Raise RuntimeError
  end.

(** [torch.sum(t)] *)
Definition torch_sum (t : Tensor Q) : Tensor Q := scalar (Qsum (data t)).

(** [t.mean()]: over no entries it is [0. / 0.]. *)
Definition torch_mean (t : Tensor Q) : Tensor fval :=
  scalar (fdivQ (Qsum (data t)) (inject_Z (Z.of_nat (length (data t))))).

(** [t.min()] and [t.max()]: they raise on an empty tensor. *)
Definition torch_min (t : Tensor Q) : res Q :=
  match data t with [] => Raise RuntimeError | v :: l => Ok (Qmin_list v l) end.
Definition torch_max (t : Tensor Q) : res Q :=
  match data t with [] => Raise RuntimeError | v :: l => Ok (Qmax_list v l) end.

(** ** What the libraries provide *)

Inductive interp_mode := Nearest | Bilinear | Area.

(** The [size] argument of [F.interpolate]: an int or a tuple. *)
Inductive size_arg :=
  | SizeInt (n : nat)
  | SizeTuple (l : list nat).

Record Param := mkParam { value : Tensor Q; requires_grad : bool }.

(** A torch module taken from a pretrained network: what it computes and the
    parameters it owns. *)
Record Layer := mkLayer {
  layer_apply : Tensor Q → res (Tensor Q);
  layer_params : list Param
}.

Class External := {
  (** [F.interpolate(input, size=, mode=, align_corners=)] *)
  F_interpolate : Tensor Q → size_arg → interp_mode → option bool → res (Tensor Q);
  (** [core.utils.crop_boundary(x, ratio)] *)
  crop_boundary : Tensor Q → Q → res (Tensor Q);
  (** [lpips.LPIPS(net='vgg')(in0, in1, retPerLayer)]; [None] stands for the
      default of the third argument *)
  lpips_LPIPS : Tensor Q → Tensor Q → option (Tensor Q) → res (Tensor fval);
  (** [models.vgg16(pretrained=b).features] and [models.vgg19(pretrained=b).features] *)
  models_vgg16_features : bool → list Layer;
  models_vgg19_features : bool → list Layer
}.

(** ** masked_mse_loss, masked_l1_loss *)

(** 1e-8 *)
Definition eps : Q := 1 # 100000000.

Definition sq_err (p g : Q) : Q := ((p - g) * (p - g))%Q.
Definition abs_err (p g : Q) : Q := Qabs (p - g).

(** [F.mse_loss(pred, gt)] and [F.mse_loss(pred, gt, reduction='none')];
    torch broadcasts the two arguments against each other. *)
Definition F_mse_loss_none (pred gt : Tensor Q) : res (Tensor Q) :=
  binop sq_err pred gt.
Definition F_mse_loss (pred gt : Tensor Q) : res (Tensor fval) :=
  torch_mean <$> F_mse_loss_none pred gt.

Definition F_l1_loss_none (pred gt : Tensor Q) : res (Tensor Q) :=
  binop abs_err pred gt.
Definition F_l1_loss (pred gt : Tensor Q) : res (Tensor fval) :=
  torch_mean <$> F_l1_loss_none pred gt.

(** [torch.sum(sum_loss * mask) / (ndim * torch.sum(mask) + 1e-8)] *)
Definition masked_ratio (sum_loss mask : Tensor Q) (ndim : nat) : res (Tensor fval) :=
  prod ← binop Qmult sum_loss mask;
  let num := torch_sum prod in
  let den :=
    tmap (λ v, v + eps)%Q
      (tmap (λ v, inject_Z (Z.of_nat ndim) * v)%Q (torch_sum mask)) in
  binop fdivQ num den.

Definition masked_mse_loss (pred gt : Tensor Q) (mask : option (Tensor Q))
  : res (Tensor fval) :=
  match mask with
  | None => F_mse_loss pred gt
  | Some mask =>
      sum_loss ← F_mse_loss_none pred gt;
      ndim ← shape_at sum_loss 1;
      masked_ratio sum_loss mask ndim
  end.

(** [if mask.shape[-2:] != pred.shape[-2:]: mask = F.interpolate(mask, size=pred.shape[-2:])] *)
Definition resize_mask_like `{External} (pred mask : Tensor Q) : res (Tensor Q) :=
  if decide (last2 (shape mask) ≠ last2 (shape pred))
  then F_interpolate mask (SizeTuple (last2 (shape pred))) Nearest None
  else Ok mask.

Definition masked_l1_loss `{External} (pred gt : Tensor Q) (mask : option (Tensor Q))
  : res (Tensor fval) :=
  match mask with
  | None => F_l1_loss pred gt
  | Some mask =>
      mask ← resize_mask_like pred mask;
      sum_loss ← F_l1_loss_none pred gt;
      ndim ← shape_at sum_loss 1;
      masked_ratio sum_loss mask ndim
  end.

(** A loss that is the number zero. *)
Definition zero_loss (r : res (Tensor fval)) : Prop :=
  ∃ q, r = Ok (scalar (Fin q)) ∧ (q == 0)%Q.

(** The denominator of the masked mean. *)
Definition masked_denominator (channels : nat) (mask : list Q) : Q :=
  (inject_Z (Z.of_nat channels) * Qsum mask + eps)%Q.

(** The two formulas in the words of the documentation: the mean of a list
    of errors, and the masked mean of errors already laid out against the
    mask. *)
Definition mean_of (errs : list Q) : fval :=
  fdivQ (Qsum errs) (inject_Z (Z.of_nat (length errs))).

Definition masked_mean (errs mask_bc : list Q) (channels : nat) (mask : list Q) : fval :=
  fdivQ (Qsum (zip_with Qmult errs mask_bc)) (masked_denominator channels mask).

(** The errors of two tensors of one shape, entry by entry. *)
Definition elementwise (f : Q → Q → Q) (pred gt : Tensor Q) : Tensor Q :=
  mkTensor (shape pred) (zip_with f (data pred) (data gt)).

(** [s] can be viewed at shape [t]. *)
Definition expandable (s t : list nat) : Prop :=
  Forall2 (λ a b, a = b ∨ a = 1) s t.

(** ** Vgg16, Vgg19 *)

(** [nn.Sequential]: the modules in the order they were added. *)
Definition Sequential := list Layer.

Definition Sequential_forward (s : Sequential) (x : Tensor Q) : res (Tensor Q) :=
  foldl (λ h l, h ≫= layer_apply l) (Ok x) s.

(** [for x in range(lo, hi): s.add_module(str(x), features[x])] *)
Fixpoint add_modules (features : list Layer) (xs : list nat) : res Sequential :=
  match xs with
  | [] => Ok []
  | x :: xs' =>
      l ← of_option IndexError (features !! x);
      s ← add_modules features xs';
      Ok (l :: s)
  end.

Definition range (lo hi : nat) : list nat := seq lo (hi - lo).

(** [param.requires_grad = False] on every parameter of a module. *)
Definition freeze_param (p : Param) : Param := mkParam (value p) false.
Definition freeze_layer (l : Layer) : Layer :=
  mkLayer (layer_apply l) (freeze_param <$> layer_params l).

Definition Sequential_parameters (s : Sequential) : list Param :=
  concat (layer_params <$> s).

Record Vgg16 := mkVgg16 {
  to_relu_1_2 : Sequential;
  to_relu_2_2 : Sequential;
  to_relu_3_3 : Sequential;
  to_relu_4_3 : Sequential
}.

(** [self.parameters()] *)
Definition Vgg16_parameters (self : Vgg16) : list Param :=
  Sequential_parameters (to_relu_1_2 self) ++ Sequential_parameters (to_relu_2_2 self)
  ++ Sequential_parameters (to_relu_3_3 self) ++ Sequential_parameters (to_relu_4_3 self).

(** The modules of the network, in order. *)
Definition Vgg16_modules (self : Vgg16) : list Layer :=
  to_relu_1_2 self ++ to_relu_2_2 self ++ to_relu_3_3 self ++ to_relu_4_3 self.

Definition Vgg16_freeze (self : Vgg16) : Vgg16 :=
  mkVgg16 (freeze_layer <$> to_relu_1_2 self) (freeze_layer <$> to_relu_2_2 self)
          (freeze_layer <$> to_relu_3_3 self) (freeze_layer <$> to_relu_4_3 self).

Definition Vgg16_init `{External} : res Vgg16 :=
  let features := models_vgg16_features true in
  s1 ← add_modules features (range 0 4);
  s2 ← add_modules features (range 4 9);
  s3 ← add_modules features (range 9 16);
  s4 ← add_modules features (range 16 23);
  Ok (Vgg16_freeze (mkVgg16 s1 s2 s3 s4)).

Definition Vgg16_forward (self : Vgg16) (x : Tensor Q) : res (list (Tensor Q)) :=
  h_relu_1_2 ← Sequential_forward (to_relu_1_2 self) x;
  h_relu_2_2 ← Sequential_forward (to_relu_2_2 self) h_relu_1_2;
  h_relu_3_3 ← Sequential_forward (to_relu_3_3 self) h_relu_2_2;
  h_relu_4_3 ← Sequential_forward (to_relu_4_3 self) h_relu_3_3;
  Ok [h_relu_1_2; h_relu_2_2; h_relu_3_3; h_relu_4_3].

Record Vgg19 := mkVgg19 {
  slice1 : Sequential;
  slice2 : Sequential;
  slice3 : Sequential;
  slice4 : Sequential;
  slice5 : Sequential
}.

Definition Vgg19_parameters (self : Vgg19) : list Param :=
  Sequential_parameters (slice1 self) ++ Sequential_parameters (slice2 self)
  ++ Sequential_parameters (slice3 self) ++ Sequential_parameters (slice4 self)
  ++ Sequential_parameters (slice5 self).

Definition Vgg19_modules (self : Vgg19) : list Layer :=
  slice1 self ++ slice2 self ++ slice3 self ++ slice4 self ++ slice5 self.

Definition Vgg19_freeze (self : Vgg19) : Vgg19 :=
  mkVgg19 (freeze_layer <$> slice1 self) (freeze_layer <$> slice2 self)
          (freeze_layer <$> slice3 self) (freeze_layer <$> slice4 self)
          (freeze_layer <$> slice5 self).

Definition Vgg19_init `{External} (requires_grad : bool) : res Vgg19 :=
  let vgg_pretrained_features := models_vgg19_features true in
  s1 ← add_modules vgg_pretrained_features (range 0 2);
  s2 ← add_modules vgg_pretrained_features (range 2 7);
  s3 ← add_modules vgg_pretrained_features (range 7 12);
  s4 ← add_modules vgg_pretrained_features (range 12 21);
  s5 ← add_modules vgg_pretrained_features (range 21 30);
  let self := mkVgg19 s1 s2 s3 s4 s5 in
  Ok (if negb requires_grad then Vgg19_freeze self else self).

Definition Vgg19_forward (self : Vgg19) (x : Tensor Q) : res (list (Tensor Q)) :=
  h_relu1 ← Sequential_forward (slice1 self) x;
  h_relu2 ← Sequential_forward (slice2 self) h_relu1;
  h_relu3 ← Sequential_forward (slice3 self) h_relu2;
  h_relu4 ← Sequential_forward (slice4 self) h_relu3;
  h_relu5 ← Sequential_forward (slice5 self) h_relu4;
  Ok [h_relu1; h_relu2; h_relu3; h_relu4; h_relu5].

(** ** VGGLoss *)

Inductive VggNet :=
  | NetVgg16 (n : Vgg16)
  | NetVgg19 (n : Vgg19).

(** The attributes [__init__] may or may not set. *)
Record VGGLoss := mkVGGLoss { vgg : option VggNet; weights : option (list Q) }.

Definition weights16 : list Q := [1 # 16; 1 # 8; 1 # 4; 1]%Q.
Definition weights19 : list Q := [1 # 32; 1 # 16; 1 # 8; 1 # 4; 1]%Q.

(** [self.loss_func] is [masked_l1_loss] in every case, so it is not stored. *)
Definition VGGLoss_init `{External} (model : string) : res VGGLoss :=
  if String.eqb model "vgg16" then
    n ← Vgg16_init; Ok (mkVGGLoss (Some (NetVgg16 n)) (Some weights16))
  else if String.eqb model "vgg19" then
    n ← Vgg19_init false; Ok (mkVGGLoss (Some (NetVgg19 n)) (Some weights19))
  else Ok (mkVGGLoss None None).

Definition mean_1311 : Tensor Q := mkTensor [1; 3; 1; 1] [0.485; 0.456; 0.406]%Q.
Definition std_1311 : Tensor Q := mkTensor [1; 3; 1; 1] [0.229; 0.224; 0.225]%Q.

Definition VGGLoss_preprocess (x : Tensor Q) : res (Tensor Q) :=
  d ← binop Qminus x mean_1311;
  binop Qdiv d std_1311.

Definition VggNet_forward (n : VggNet) (x : Tensor Q) : res (list (Tensor Q)) :=
  match n with
  | NetVgg16 n => Vgg16_forward n x
  | NetVgg19 n => Vgg19_forward n x
  end.

(** Python's [min] of a tuple. *)
Definition py_min (l : list nat) : res nat :=
  match l with [] => Raise ValueError | a :: l' => Ok (foldr Nat.min a l') end.

(** [loss += t] on tensors: the sum must have the shape of [loss]. *)
Definition iadd (loss t : Tensor fval) : res (Tensor fval) :=
  r ← binop fadd loss t;
  if decide (shape r = shape loss) then Ok r else Raise RuntimeError.

(** [for a in l: s = body(s, a)] *)
Fixpoint for_each {S A} (body : S → A → res S) (s : S) (l : list A) : res S :=
  match l with
  | [] => Ok s
  | a :: l' => s' ← body s a; for_each body s' l'
  end.

Definition VGGLoss_resize_mask `{External} (mask : option (Tensor Q)) (size : nat)
  : res (option (Tensor Q)) :=
  match mask with
  | None => Ok None
  | Some mask =>
      m ← py_min (last2 (shape mask));
      let '(mode, align_corners) :=
        if m <=? size then (Bilinear, Some true) else (Area, None) in
      Some <$> F_interpolate mask (SizeInt size) mode align_corners
  end.

(** The body of [for i in range(len(x_vgg))]. *)
Definition VGGLoss_step `{External} (self : VGGLoss) (x_vgg y_vgg : list (Tensor Q))
    (mask : option (Tensor Q)) (loss : Tensor fval) (i : nat) : res (Tensor fval) :=
  ws ← of_option AttributeError (weights self);
  w ← of_option IndexError (ws !! i);
  xi ← of_option IndexError (x_vgg !! i);
  yi ← of_option IndexError (y_vgg !! i);
  l ← masked_l1_loss xi yi mask;
  iadd loss (tmap (fscale w) l).

Definition VGGLoss_forward `{External} (self : VGGLoss) (x y : Tensor Q)
    (mask : option (Tensor Q)) (size : nat) : res (Tensor fval) :=
  x ← VGGLoss_preprocess x;
  y ← VGGLoss_preprocess y;
  mask ← VGGLoss_resize_mask mask size;
  net ← of_option AttributeError (vgg self);
  x_vgg ← VggNet_forward net x;
  y_vgg ← VggNet_forward net y;
  loss ← masked_l1_loss x y mask;
  for_each (VGGLoss_step self x_vgg y_vgg mask) loss (range 0 (length x_vgg)).

(** The loss of [VGGLoss.forward] in the words of the documentation: the
    masked L1 loss of the preprocessed images plus the sum over the feature
    levels of weight times masked L1 loss of the feature maps. *)
Definition level_loss `{External} (mask : option (Tensor Q)) (w : Q)
    (fx fy : Tensor Q) : res fval :=
  l ← masked_l1_loss fx fy mask; v ← item l; Ok (fscale w v).

Fixpoint sum_levels `{External} (mask : option (Tensor Q)) (ws : list Q)
    (fxs fys : list (Tensor Q)) : res fval :=
  match ws, fxs, fys with
  | w :: ws', fx :: fxs', fy :: fys' =>
      t ← level_loss mask w fx fy;
      rest ← sum_levels mask ws' fxs' fys';
      Ok (fadd t rest)
  | _, _, _ => Ok (Fin 0)
  end.

Definition VGGLoss_documented `{External} (ws : list Q) (net : VggNet)
    (x y : Tensor Q) (mask : option (Tensor Q)) (size : nat) : res (Tensor fval) :=
  x ← VGGLoss_preprocess x;
  y ← VGGLoss_preprocess y;
  mask ← VGGLoss_resize_mask mask size;
  x_vgg ← VggNet_forward net x;
  y_vgg ← VggNet_forward net y;
  l0 ← masked_l1_loss x y mask;
  v0 ← item l0;
  s ← sum_levels mask ws x_vgg y_vgg;
  Ok (scalar (fadd v0 s)).

(** Results that agree: the same exception, or tensors of one shape whose
    entries are equal numbers. *)
Definition tensor_feq (a b : Tensor fval) : Prop :=
  shape a = shape b ∧ Forall2 feq (data a) (data b).

Definition res_feq (r1 r2 : res (Tensor fval)) : Prop :=
  match r1, r2 with
  | Ok a, Ok b => tensor_feq a b
  | Raise e1, Raise e2 => e1 = e2
  | _, _ => False
  end.

(** The levels the loop visits: index [i] with its weight and feature maps. *)
Inductive levels_at (WS : list Q) (FX FY : list (Tensor Q))
  : list nat → list Q → list (Tensor Q) → list (Tensor Q) → Prop :=
  | levels_nil : levels_at WS FX FY [] [] [] []
  | levels_cons i idx w ws fx fxs fy fys :
      WS !! i = Some w → FX !! i = Some fx → FY !! i = Some fy →
      levels_at WS FX FY idx ws fxs fys →
      levels_at WS FX FY (i :: idx) (w :: ws) (fx :: fxs) (fy :: fys).

(** ** normalize_minus_one_to_one *)

(** [fmax] is the largest finite number of the dtype of [x]. *)
Definition normalize_minus_one_to_one (fmax : Q) (x : Tensor Q) : res (Tensor fval) :=
  x_min ← torch_min x;
  x_max ← torch_max x;
  let width := rsub fmax (Fin x_max) (Fin x_min) in
  Ok (tmap (λ v, rsub fmax
                   (rdiv fmax (rscale fmax 2 (rsub fmax (Fin v) (Fin x_min))) width)
                   (Fin 1)) x).

(** The entry the formula gives when the denominator is not zero. *)
Definition rescale (lo hi w : Q) : Q := (2 * (w - lo) / (hi - lo) + - (1))%Q.

(** ** Criterion *)

(** ['vgg' in s] *)
Fixpoint contains (sub s : string) : bool :=
  String.prefix sub s
  || match s with EmptyString => false | String _ s' => contains sub s' end.

(** [sub] occurs in [s]. *)
Definition occurs (sub s : string) : Prop :=
  ∃ pre post, s = String.append pre (String.append sub post).

Record Args := mkArgs {
  local_rank : Z;
  boundary_crop_ratio : Q;
  args_loss_mode : string
}.

Inductive LossFunc :=
  | LF_VGGLoss (v : VGGLoss)
  | LF_LPIPS
  | LF_masked_mse_loss
  | LF_masked_l1_loss.

Record Criterion := mkCriterion {
  crop_ratio : Q;
  loss_mode : string;
  loss_func : LossFunc
}.

Definition Criterion_init `{External} (args : Args) : res Criterion :=
  let crop_ratio := boundary_crop_ratio args in
  let loss_mode := args_loss_mode args in
  if contains "vgg" loss_mode then
    v ← VGGLoss_init loss_mode; Ok (mkCriterion crop_ratio loss_mode (LF_VGGLoss v))
  else if String.eqb loss_mode "lpips" then
    Ok (mkCriterion crop_ratio loss_mode LF_LPIPS)
  else if String.eqb loss_mode "mse" then
    Ok (mkCriterion crop_ratio loss_mode LF_masked_mse_loss)
  else if String.eqb loss_mode "l1" then
    Ok (mkCriterion crop_ratio loss_mode LF_masked_l1_loss)
  else Raise NotImplementedError.

(** [self.loss_func(a, b, mask)]; the two-argument call is the one with
    [mask = None], the default of every loss function here. *)
Definition call_loss_func `{External} (f : LossFunc) (a b : Tensor Q)
    (mask : option (Tensor Q)) : res (Tensor fval) :=
  match f with
  | LF_VGGLoss v => VGGLoss_forward v a b mask 224
  | LF_LPIPS => lpips_LPIPS a b mask
  | LF_masked_mse_loss => masked_mse_loss a b mask
  | LF_masked_l1_loss => masked_l1_loss a b mask
  end.

(** [forward] runs against the dictionary [scalar_to_log], which it updates
    in place: a computation takes the dictionary and gives its final
    contents, also when an exception ends the call. *)
Definition Log := gmap string fval.
Definition LogM (A : Type) : Type := Log → Log * res A.

#[global] Instance LogM_ret : MRet LogM := λ A a d, (d, Ok a).
#[global] Instance LogM_bind : MBind LogM :=
  λ A B f m d, match m d with
               | (d', Ok a) => f a d'
               | (d', Raise e) => (d', Raise e)
               end.

Definition lift {A} (m : res A) : LogM A := λ d, (d, m).

(** [scalar_to_log[k] = v] *)
Definition setitem (k : string) (v : fval) : LogM unit := λ d, (<[k := v]> d, Ok ()).

Definition Criterion_crop `{External} (self : Criterion) (pred target : Tensor Q)
  : res (Tensor Q * Tensor Q) :=
  if negb (Qle_bool (crop_ratio self) 0) then
    pred ← crop_boundary pred (crop_ratio self);
    target ← crop_boundary target (crop_ratio self);
    Ok (pred, target)
  else Ok (pred, target).

(** The returned pair is [(loss, scalar_to_log)] with the dictionary in its
    final state; [res_dict] and [step] are not used by the code. *)
Definition Criterion_forward `{External} (self : Criterion) (pred target : Tensor Q)
    (mask : option (Tensor Q)) (is_multi_view : Z) : LogM (Tensor fval) :=
  '(pred, target) ← lift (Criterion_crop self pred target);
  if String.eqb (loss_mode self) "lpips" then
    let pred_normed := tmap (λ v, 2 * v - 1)%Q pred in
    let target_normed := tmap (λ v, 2 * v - 1)%Q target in
    loss ← lift (call_loss_func (loss_func self) pred_normed target_normed None);
    v ← lift (item loss);
    _ ← setitem "loss_perceptual" v;
    if (is_multi_view =? 0)%Z then
      l1_loss ← lift (masked_l1_loss pred target mask);
      loss ← lift (binop fadd loss l1_loss);
      v1 ← lift (item l1_loss);
      _ ← setitem "loss_l1" v1;
      mret loss
    else mret loss
  else lift (call_loss_func (loss_func self) pred target mask).

(** ** A small instance of the library code, to run the definitions

    Nearest-neighbour resizing of the last two dimensions (used for every
    interpolation mode), a crop that leaves the image alone, a stand-in for
    LPIPS with the output shape of the real one (one value per batch entry,
    shape [B;1;1;1]) and pretrained stacks of the real lengths (31 and 37
    modules) whose modules each own one trainable parameter. *)

Definition demo_resize_plane (h w h' w' : nat) (p : list Q) : list Q :=
  i ← seq 0 h'; j ← seq 0 w'; [nth ((i * h / h') * w + j * w / w') p 0%Q].

Definition demo_interpolate (m : Tensor Q) (size : size_arg) (_ : interp_mode)
    (_ : option bool) : res (Tensor Q) :=
  match reverse (shape m) with
  | w :: h :: pre =>
      hw ← match size with
           | SizeInt n => Ok (n, n)
           | SizeTuple [a; b] => Ok (a, b)
           | SizeTuple _ => Raise ValueError
           end;
      let planes := chunks (h * w) (numel pre) (data m) in
      Ok (mkTensor (reverse pre ++ [hw.1; hw.2])
                   (concat (demo_resize_plane h w hw.1 hw.2 <$> planes)))
  | _ => Raise ValueError
  end.

Definition demo_lpips (a b : Tensor Q) (_ : option (Tensor Q)) : res (Tensor fval) :=
  match shape a with
  | n :: rest =>
      d ← binop sq_err a b;
      Ok (mkTensor [n; 1; 1; 1] (mean_of <$> chunks (numel rest) n (data d)))
  | [] => Raise RuntimeError
  end.

Definition demo_layer : Layer :=
  mkLayer (λ x, Ok x) [mkParam (scalar 1%Q) true].

#[global] Instance demo : External := {|
  F_interpolate := demo_interpolate;
  crop_boundary := λ x _, Ok x;
  lpips_LPIPS := demo_lpips;
  models_vgg16_features := λ _, replicate 31 demo_layer;
  models_vgg19_features := λ _, replicate 37 demo_layer
|}.

(** One pixel, a mask whose weight cancels the 1e-8, and an empty batch. *)
Definition one_px : Tensor Q := mkTensor [1; 1; 1; 1] [1%Q].
Definition neg_mask : Tensor Q := mkTensor [1; 1; 1; 1] [(- eps)%Q].
Definition empty_batch : Tensor Q := mkTensor [0; 3; 2; 2] [].

(** A tensor whose entries are all equal. *)
Definition const_t : Tensor Q := mkTensor [2] [3; 3]%Q.

(** Criteria as [__init__] builds them, and an empty log. *)
Definition crit_lpips : Criterion := mkCriterion 0 "lpips" LF_LPIPS.
Definition crit_mse : Criterion := mkCriterion 0 "mse" LF_masked_mse_loss.
Definition no_log : gmap string fval := ∅.

(** Sample images: one batch entry, two channels, 1x2 pixels. *)
Definition img_a : Tensor Q := mkTensor [1; 2; 1; 2] [1; 2; 3; 4]%Q.
Definition img_b : Tensor Q := mkTensor [1; 2; 1; 2] [0; 2; 1; 5]%Q.
(** A mask over the pixels, and one of a different spatial size. *)
Definition mask_12 : Tensor Q := mkTensor [1; 1; 1; 2] [1; 0]%Q.
Definition mask_24 : Tensor Q := mkTensor [1; 1; 2; 4] [1; 1; 0; 0; 1; 1; 0; 0]%Q.

(** A batch of two images of one pixel. *)
Definition batch2_a : Tensor Q := mkTensor [2; 1; 1; 1] [1; 2]%Q.
Definition batch2_b : Tensor Q := mkTensor [2; 1; 1; 1] [0; 2]%Q.

(** Three float32 numbers: 0, 2^126 and 2^127 (about 8.5e37 and 1.7e38). *)
Definition wide_t : Tensor Q :=
  mkTensor [3] [0; 85070591730234615865843651857942052864;
                170141183460469231731687303715884105728]%Q.

(** ** Notions used by the further properties *)

(** A loss that is a finite number, not below zero. *)
Definition nonneg_loss (r : res (Tensor fval)) : Prop :=
  ∃ q, r = Ok (scalar (Fin q)) ∧ (0 <= q)%Q.

(** Entries between 0 and 1: images as the code assumes them, and mask
    weights. *)
Definition unit_range (t : Tensor Q) : Prop :=
  Forall (λ v, 0 <= v ∧ v <= 1)%Q (data t).

(** Sample images with entries between 0 and 1; [unit_c] is [unit_a] with
    other values where [mask_12] is 0. *)
Definition unit_a : Tensor Q := mkTensor [1; 2; 1; 2] [0; 1 # 2; 1; 1 # 4]%Q.
Definition unit_b : Tensor Q := mkTensor [1; 2; 1; 2] [1; 1 # 2; 0; 3 # 4]%Q.
Definition unit_c : Tensor Q := mkTensor [1; 2; 1; 2] [0; 1; 1; 3 # 4]%Q.

(** A tensor of rank one, and a mask of zeros. *)
Definition vec3 : Tensor Q := mkTensor [3] [1; 2; 3]%Q.
Definition zero_mask : Tensor Q := mkTensor [1; 1; 1; 2] [0; 0]%Q.
(** A mask with three channels, which does not fit two-channel images. *)
Definition mask_3ch : Tensor Q := mkTensor [1; 3; 1; 2] [1; 1; 1; 1; 1; 1]%Q.
(** A one-channel mask of ones. *)
Definition ones_12 : Tensor Q := mkTensor [1; 1; 1; 2] [1; 1]%Q.
(** A log that already has an entry. *)
Definition some_log : gmap string fval := <["step" := Fin 7]> ∅.
(** One pixel with three channels. *)
Definition rgb_px : Tensor Q := mkTensor [1; 3; 1; 1] [1; 2; 3]%Q.

(** * Properties *)

(** ** Results *)

Lemma bind_Ok {A B} (a : A) (f : A → res B) : Ok a ≫= f = f a.
Proof. reflexivity. Qed.

Lemma bind_Ok_inv {A B} (m : res A) (f : A → res B) b :
  m ≫= f = Ok b → ∃ a, m = Ok a ∧ f a = Ok b.
Proof. destruct m as [a|e]; [by exists a | done]. Qed.

(** ** Lists of blocks *)

Lemma Forall_chunks {A} (P : A → Prop) n k (l : list A) :
  Forall P l → Forall (Forall P) (chunks n k l).
Proof.
  revert l. induction k as [|k IH]; intros l Hl; simpl; constructor.
  - by apply Forall_take.
  - apply IH. by apply Forall_drop.
Qed.

Lemma length_chunks {A} n k (l : list A) : length (chunks n k l) = k.
Proof. revert l. induction k as [|k IH]; intros l; simpl; [done|]. by rewrite IH. Qed.

Lemma chunks_lengths {A} n k (l : list A) :
  length l = k * n → Forall (λ c, length c = n) (chunks n k l).
Proof.
  revert l. induction k as [|k IH]; intros l Hl; simpl; constructor.
  - rewrite length_take. lia.
  - apply IH. rewrite length_drop. lia.
Qed.

Lemma concat_chunks {A} n k (l : list A) :
  length l = k * n → concat (chunks n k l) = l.
Proof.
  revert l. induction k as [|k IH]; intros l Hl; simpl.
  - destruct l; [done | simpl in Hl; lia].
  - rewrite IH; [apply take_drop | rewrite length_drop; lia].
Qed.

Lemma length_concat_uniform {A} m (ls : list (list A)) :
  Forall (λ r, length r = m) ls → length (concat ls) = length ls * m.
Proof.
  induction 1 as [|r ls Hr _ IH]; simpl; [done|].
  rewrite length_app, IH, Hr. lia.
Qed.

(** ** Broadcasting *)

Lemma Forall_expand {A} (P : A → Prop) s t (d : list A) :
  Forall P d → Forall P (expand s t d).
Proof.
  revert t d. induction s as [|a s IH]; intros [|b t] d Hd; simpl; try done.
  assert (Hrows : Forall (Forall P) (expand s t <$> chunks (numel s) a d)).
  { apply Forall_fmap. eapply Forall_impl; [by apply Forall_chunks|].
    intros c Hc. by apply IH. }
  destruct (a =? b).
  - by apply Forall_concat.
  - apply Forall_concat, Forall_replicate. by apply Forall_concat.
Qed.

Lemma expand_id {A} s (d : list A) : length d = numel s → expand s s d = d.
Proof.
  revert d. induction s as [|a s IH]; intros d Hd; simpl; [done|].
  rewrite Nat.eqb_refl. simpl in Hd.
  rewrite <- (concat_chunks (numel s) a d) at 2 by lia.
  f_equal. rewrite <- (list_fmap_id (chunks (numel s) a d)) at 2.
  apply Forall_fmap_ext_1. eapply Forall_impl; [apply chunks_lengths; lia|].
  intros c Hc. by apply IH.
Qed.

Lemma length_expand {A} s t (d : list A) :
  expandable s t → length d = numel s → length (expand s t d) = numel t.
Proof.
  intros Hst. revert d. induction Hst as [|a b s t Hab _ IH]; intros d Hd; simpl; [done|].
  simpl in Hd.
  assert (Hrows : Forall (λ r, length r = numel t)
                    (expand s t <$> chunks (numel s) a d)).
  { apply Forall_fmap. eapply Forall_impl; [apply chunks_lengths; lia|].
    intros c Hc. by apply IH. }
  apply length_concat_uniform in Hrows as Hlen.
  rewrite length_fmap, length_chunks in Hlen.
  destruct (Nat.eqb_spec a b) as [->|Hne]; [done|].
  destruct Hab as [?| ->]; [done|].
  rewrite (length_concat_uniform (numel t)).
  - rewrite length_replicate. done.
  - apply Forall_replicate. lia.
Qed.

Lemma bshape_expandable s1 s2 s :
  bshape s1 s2 = Some s → expandable s1 s ∧ expandable s2 s.
Proof.
  revert s2 s. induction s1 as [|a s1 IH]; intros [|b s2] s; simpl; try done.
  - intros [= <-]. split; constructor.
  - destruct (bshape s1 s2) as [r|] eqn:Hr; simpl; [|done].
    destruct (IH _ _ Hr) as [H1 H2].
    destruct (Nat.eqb_spec a b) as [->|?].
    { intros [= <-]. split; constructor; auto. }
    destruct (Nat.eqb_spec a 1) as [->|?].
    { intros [= <-]. split; constructor; auto. }
    destruct (Nat.eqb_spec b 1) as [->|?]; [|done].
    intros [= <-]. split; constructor; auto.
Qed.

Lemma bshape_refl s : bshape s s = Some s.
Proof. induction s as [|a s IH]; simpl; [done|]. by rewrite IH, Nat.eqb_refl. Qed.

Lemma pad_shape_same s : pad_shape (length s) s = s.
Proof. unfold pad_shape. by rewrite Nat.sub_diag. Qed.

Lemma numel_pad_shape r s : numel (pad_shape r s) = numel s.
Proof.
  unfold pad_shape. induction (r - length s) as [|n IH]; simpl; [done|]. lia.
Qed.

Lemma broadcast_shapes_refl s : broadcast_shapes s s = Some s.
Proof.
  unfold broadcast_shapes. rewrite Nat.max_id, pad_shape_same. apply bshape_refl.
Qed.

Lemma broadcast_to_same {A} (t : Tensor A) : wf t → broadcast_to t (shape t) = data t.
Proof. intros Ht. unfold broadcast_to. rewrite pad_shape_same. by apply expand_id. Qed.

Lemma binop_same_shape {A B C} (f : A → B → C) (t1 : Tensor A) (t2 : Tensor B) :
  wf t1 → wf t2 → shape t1 = shape t2 →
  binop f t1 t2 = Ok (mkTensor (shape t1) (zip_with f (data t1) (data t2))).
Proof.
  intros H1 H2 Hs. unfold binop. rewrite <- Hs, broadcast_shapes_refl.
  rewrite broadcast_to_same by done.
  rewrite Hs, broadcast_to_same by done. done.
Qed.

Lemma binop_scalar {A B C} (f : A → B → C) (u : A) (v : B) :
  binop f (scalar u) (scalar v) = Ok (scalar (f u v)).
Proof. reflexivity. Qed.

(** ** The masked losses *)

Lemma masked_ratio_eq sum_loss mask ndim s :
  broadcast_shapes (shape sum_loss) (shape mask) = Some s →
  masked_ratio sum_loss mask ndim
  = Ok (scalar (masked_mean (broadcast_to sum_loss s) (broadcast_to mask s)
                            ndim (data mask))).
Proof. intros Hs. unfold masked_ratio, binop. rewrite Hs. reflexivity. Qed.

Lemma length_zip_with_same {A B C} (f : A → B → C) l k :
  length l = length k → length (zip_with f l k) = length l.
Proof. intros H. rewrite length_zip_with. lia. Qed.







(** ** Identical prediction and ground truth *)

Lemma Qsum_zero (l : list Q) : Forall (λ v, v == 0)%Q l → (Qsum l == 0)%Q.
Proof.
  induction 1 as [|v l Hv _ IH]; simpl; [reflexivity|].
  rewrite Hv, IH. reflexivity.
Qed.

Lemma zip_with_Qmult_zero (l k : list Q) :
  Forall (λ v, v == 0)%Q l → Forall (λ v, v == 0)%Q (zip_with Qmult l k).
Proof.
  intros Hl. revert k. induction Hl as [|v l Hv _ IH]; intros [|w k]; simpl;
    constructor; [|apply IH].
  rewrite Hv. ring.
Qed.

Lemma zip_with_diag_zero (f : Q → Q → Q) (l : list Q) :
  (∀ v, f v v == 0)%Q → Forall (λ v, v == 0)%Q (zip_with f l l).
Proof. intros Hf. induction l; simpl; constructor; auto. Qed.

Lemma sq_err_diag v : (sq_err v v == 0)%Q.
Proof. unfold sq_err. ring. Qed.

Lemma abs_err_diag v : (abs_err v v == 0)%Q.
Proof.
  unfold abs_err. assert (Hz : (v - v == 0)%Q) by ring.
  rewrite Hz. reflexivity.
Qed.

Lemma fdivQ_zero (a b : Q) :
  (a == 0)%Q → ¬ (b == 0)%Q → ∃ q, fdivQ a b = Fin q ∧ (q == 0)%Q.
Proof.
  intros Ha Hb. unfold fdivQ.
  destruct (Qeq_bool b 0) eqn:E.
  - apply Qeq_bool_iff in E. contradiction.
  - eexists; split; [reflexivity|]. rewrite Ha. field. exact Hb.
Qed.

Lemma fdivQ_zero_zero (a b : Q) : (a == 0)%Q → (b == 0)%Q → fdivQ a b = NaN.
Proof.
  intros Ha Hb. unfold fdivQ, over_zero.
  apply Qeq_bool_iff in Ha, Hb. by rewrite Hb, Ha.
Qed.

Lemma binop_diag (f : Q → Q → Q) (x : Tensor Q) :
  wf x → binop f x x = Ok (elementwise f x x).
Proof. intros Hx. by rewrite binop_same_shape. Qed.

Lemma elementwise_diag_zero (f : Q → Q → Q) (x : Tensor Q) s :
  (∀ v, f v v == 0)%Q →
  Forall (λ v, v == 0)%Q (broadcast_to (elementwise f x x) s).
Proof. intros Hf. apply Forall_expand. simpl. by apply zip_with_diag_zero. Qed.

Lemma mean_of_zero (l : list Q) :
  l ≠ [] → Forall (λ v, v == 0)%Q l → ∃ q, mean_of l = Fin q ∧ (q == 0)%Q.
Proof.
  intros Hne Hl. apply fdivQ_zero; [by apply Qsum_zero|].
  destruct l as [|v l]; [done|]. simpl length.
  intros H0. unfold Qeq in H0. simpl in H0. lia.
Qed.

Lemma masked_ratio_zero (err mask : Tensor Q) channels s :
  broadcast_shapes (shape err) (shape mask) = Some s →
  Forall (λ v, v == 0)%Q (broadcast_to err s) →
  ¬ (masked_denominator channels (data mask) == 0)%Q →
  zero_loss (masked_ratio err mask channels).
Proof.
  intros Hs Hz Hd. rewrite (masked_ratio_eq _ _ _ s Hs).
  destruct (fdivQ_zero (Qsum (zip_with Qmult (broadcast_to err s) (broadcast_to mask s)))
              (masked_denominator channels (data mask))) as (q & Hq & Hq0);
    [by apply Qsum_zero, zip_with_Qmult_zero | done |].
  exists q. split; [|done]. unfold masked_mean. by rewrite Hq.
Qed.

(** A mask without negative weights never cancels the 1e-8. *)
Lemma nonneg_mask_denominator channels (mask : list Q) :
  Forall (λ v, 0 <= v)%Q mask → ¬ (masked_denominator channels mask == 0)%Q.
Proof.
  intros Hm. unfold masked_denominator.
  assert (Hs : (0 <= Qsum mask)%Q).
  { induction Hm as [|v l Hv _ IH]; simpl; [apply Qle_refl|]. lra. }
  assert (Hc : (0 <= inject_Z (Z.of_nat channels))%Q).
  { unfold Qle. simpl. lia. }
  assert (Hp : (0 <= inject_Z (Z.of_nat channels) * Qsum mask)%Q)
    by (by apply Qmult_le_0_compat).
  unfold eps. intros H0.
  assert (He : (0 < 1 # 100000000)%Q) by reflexivity. lra.
Qed.

(** C10, as it holds.  A loss of a tensor against itself is 0 when no mask is
    given and the tensor has an entry, and when the mask as applied
    broadcasts against the tensor and its denominator (channels times the
    sum of the mask, plus 1e-8) is not 0. *)
Theorem identical_inputs_zero_loss `{External} (x : Tensor Q) :
  wf x →
  (data x ≠ [] →
   zero_loss (masked_mse_loss x x None) ∧ zero_loss (masked_l1_loss x x None))
  ∧ ∀ mask channels s,
      shape x !! 1 = Some channels →
      (broadcast_shapes (shape x) (shape mask) = Some s →
       ¬ (masked_denominator channels (data mask) == 0)%Q →
       zero_loss (masked_mse_loss x x (Some mask)))
      ∧ ∀ applied,
          resize_mask_like x mask = Ok applied →
          broadcast_shapes (shape x) (shape applied) = Some s →
          ¬ (masked_denominator channels (data applied) == 0)%Q →
          zero_loss (masked_l1_loss x x (Some mask)).
Proof.
  intros Hx. split.
  - intros Hne.
    assert (Hmean : ∀ f : Q → Q → Q, (∀ v, f v v == 0)%Q →
              zero_loss (torch_mean <$> binop f x x)).
    { intros f Hf. rewrite binop_diag by done. simpl.
      destruct (mean_of_zero (zip_with f (data x) (data x))) as (q & Hq & Hq0).
      - destruct (data x); [done | discriminate].
      - by apply zip_with_diag_zero.
      - exists q. split; [|done]. unfold torch_mean, scalar. simpl.
        unfold mean_of in Hq. by rewrite Hq. }
    split; [apply (Hmean sq_err sq_err_diag) | apply (Hmean abs_err abs_err_diag)].
  - intros mask channels s Hc. split.
    + intros Hs Hd. unfold masked_mse_loss, F_mse_loss_none.
      rewrite binop_diag by done. simpl.
      unfold shape_at. simpl. rewrite Hc. simpl.
      apply (masked_ratio_zero _ _ _ s); [done| |done].
      apply elementwise_diag_zero, sq_err_diag.
    + intros applied Hm Hs Hd. unfold masked_l1_loss. rewrite Hm. simpl.
      unfold F_l1_loss_none. rewrite binop_diag by done. simpl.
      unfold shape_at. simpl. rewrite Hc. simpl.
      apply (masked_ratio_zero _ _ _ s); [done| |done].
      apply elementwise_diag_zero, abs_err_diag.
Qed.

Lemma identical_inputs_zero_loss_witness :
  zero_loss (masked_mse_loss img_a img_a None)
  ∧ zero_loss (masked_l1_loss img_a img_a None)
  ∧ zero_loss (masked_mse_loss img_a img_a (Some mask_12))
  ∧ zero_loss (masked_l1_loss img_a img_a (Some mask_24)).
Proof.
  pose proof (identical_inputs_zero_loss img_a eq_refl) as [Hnone Hmask].
  destruct (Hnone ltac:(discriminate)) as [Hmse Hl1].
  destruct (Hmask mask_12 2 [1; 2; 1; 2] eq_refl) as [Hm _].
  destruct (Hmask mask_24 2 [1; 2; 1; 2] eq_refl) as [_ Hl].
  repeat split; [exact Hmse | exact Hl1 | |].
  - apply Hm; [reflexivity | by vm_compute].
  - apply (Hl mask_12); [reflexivity | reflexivity | by vm_compute].
Defined.

(** C10 as stated fails: a mask whose weight cancels the 1e-8 gives [0./0.],
    and so does the mean over an empty batch. *)
Lemma identical_inputs_zero_loss_counterexample :
  ¬ (∀ (x : Tensor Q) (mask : option (Tensor Q)),
       wf x → zero_loss (masked_mse_loss x x mask)
              ∧ zero_loss (masked_l1_loss x x mask))
  ∧ masked_mse_loss one_px one_px (Some neg_mask) = Ok (scalar NaN)
  ∧ masked_l1_loss one_px one_px (Some neg_mask) = Ok (scalar NaN)
  ∧ masked_mse_loss empty_batch empty_batch None = Ok (scalar NaN)
  ∧ masked_l1_loss empty_batch empty_batch None = Ok (scalar NaN).
Proof.
  split; [|repeat split].
  intros Hall. destruct (Hall one_px (Some neg_mask) eq_refl) as [(q & Hq & _) _].
  vm_compute in Hq. discriminate.
Qed.

(** ** normalize_minus_one_to_one *)

Lemma Qmin_list_mono (g : Q → Q) v l :
  (∀ a b, a == b → g a == g b)%Q → (∀ a b, a <= b → g a <= g b)%Q →
  (Qmin_list (g v) (g <$> l) == g (Qmin_list v l))%Q.
Proof.
  intros Hp Hm. induction l as [|w l IH]; simpl; [reflexivity|].
  fold (Qmin_list (g v) (g <$> l)). fold (Qmin_list v l).
  rewrite IH.
  destruct (Qlt_le_dec (Qmin_list v l) w) as [Hlt|Hle].
  - apply Qlt_le_weak in Hlt.
    rewrite (Q.min_r _ _ (Hm _ _ Hlt)). apply Hp. symmetry. by apply Q.min_r.
  - rewrite (Q.min_l _ _ (Hm _ _ Hle)). apply Hp. symmetry. by apply Q.min_l.
Qed.

Lemma Qmax_list_mono (g : Q → Q) v l :
  (∀ a b, a == b → g a == g b)%Q → (∀ a b, a <= b → g a <= g b)%Q →
  (Qmax_list (g v) (g <$> l) == g (Qmax_list v l))%Q.
Proof.
  intros Hp Hm. induction l as [|w l IH]; simpl; [reflexivity|].
  fold (Qmax_list (g v) (g <$> l)). fold (Qmax_list v l).
  rewrite IH.
  destruct (Qlt_le_dec (Qmax_list v l) w) as [Hlt|Hle].
  - apply Qlt_le_weak in Hlt.
    rewrite (Q.max_l _ _ (Hm _ _ Hlt)). apply Hp. symmetry. by apply Q.max_l.
  - rewrite (Q.max_r _ _ (Hm _ _ Hle)). apply Hp. symmetry. by apply Q.max_r.
Qed.

Lemma Qmin_list_const c v l :
  (v == c)%Q → Forall (λ w, w == c)%Q l → (Qmin_list v l == c)%Q.
Proof.
  intros Hv. induction 1 as [|w l Hw _ IH]; simpl; [done|].
  fold (Qmin_list v l). rewrite IH, Hw. apply Q.min_l, Qle_refl.
Qed.

Lemma Qmax_list_const c v l :
  (v == c)%Q → Forall (λ w, w == c)%Q l → (Qmax_list v l == c)%Q.
Proof.
  intros Hv. induction 1 as [|w l Hw _ IH]; simpl; [done|].
  fold (Qmax_list v l). rewrite IH, Hw. apply Q.max_l, Qle_refl.
Qed.

Lemma Qmin_list_le v l :
  (Qmin_list v l <= v)%Q ∧ Forall (λ w, Qmin_list v l <= w)%Q l.
Proof.
  induction l as [|w l [IHv IHl]]; simpl; [split; [apply Qle_refl | done]|].
  fold (Qmin_list v l). split.
  - eapply Qle_trans; [apply Q.le_min_r | done].
  - constructor; [apply Q.le_min_l|].
    eapply Forall_impl; [exact IHl|]. intros u Hu. simpl in Hu.
    eapply Qle_trans; [apply Q.le_min_r | done].
Qed.

Lemma Qmax_list_ge v l :
  (v <= Qmax_list v l)%Q ∧ Forall (λ w, w <= Qmax_list v l)%Q l.
Proof.
  induction l as [|w l [IHv IHl]]; simpl; [split; [apply Qle_refl | done]|].
  fold (Qmax_list v l). split.
  - eapply Qle_trans; [done | apply Q.le_max_r].
  - constructor; [apply Q.le_max_l|].
    eapply Forall_impl; [exact IHl|]. intros u Hu. simpl in Hu.
    eapply Qle_trans; [done | apply Q.le_max_r].
Qed.

Lemma between_min_max v l :
  Forall (λ w, Qmin_list v l <= w ∧ w <= Qmax_list v l)%Q (v :: l).
Proof.
  destruct (Qmin_list_le v l) as [Hmv Hml], (Qmax_list_ge v l) as [HMv HMl].
  constructor; [done|]. by apply Forall_and.
Qed.

Lemma overflow_Fin fmax q : (- fmax <= q)%Q → (q <= fmax)%Q → overflow fmax q = Fin q.
Proof.
  intros H1 H2. unfold overflow. apply Qle_bool_iff in H1, H2. by rewrite H1, H2.
Qed.

Lemma rsub_Fin fmax a b :
  (- fmax <= a - b)%Q → (a - b <= fmax)%Q → rsub fmax (Fin a) (Fin b) = Fin (a + - b).
Proof. intros H1 H2. unfold rsub. simpl. by apply overflow_Fin. Qed.

Lemma rscale_Fin fmax s a :
  (- fmax <= s * a)%Q → (s * a <= fmax)%Q → rscale fmax s (Fin a) = Fin (s * a).
Proof. intros H1 H2. unfold rscale. simpl. by apply overflow_Fin. Qed.

Lemma rdiv_Fin fmax a b :
  ¬ (b == 0)%Q → (- fmax <= a / b)%Q → (a / b <= fmax)%Q →
  rdiv fmax (Fin a) (Fin b) = Fin (a / b).
Proof.
  intros Hb H1 H2. unfold rdiv. simpl. unfold fdivQ.
  destruct (Qeq_bool b 0) eqn:E; [by apply Qeq_bool_iff in E|].
  simpl. by apply overflow_Fin.
Qed.

(** Within the range, an entry is what the formula gives in exact
    arithmetic. *)
Lemma normalize_entry fmax lo hi w :
  (2 <= fmax)%Q → (lo < hi)%Q → (2 * (hi - lo) <= fmax)%Q →
  (lo <= w)%Q → (w <= hi)%Q →
  rsub fmax (rdiv fmax (rscale fmax 2 (rsub fmax (Fin w) (Fin lo)))
                       (rsub fmax (Fin hi) (Fin lo))) (Fin 1)
  = Fin (rescale lo hi w).
Proof.
  intros Hf Hlt Hr Hw1 Hw2.
  assert (Hq0 : (0 <= 2 * (w + - lo) / (hi + - lo))%Q).
  { apply Qle_shift_div_l; lra. }
  assert (Hq2 : (2 * (w + - lo) / (hi + - lo) <= 2)%Q).
  { apply Qle_shift_div_r; lra. }
  rewrite (rsub_Fin fmax w lo), (rsub_Fin fmax hi lo) by lra.
  rewrite rscale_Fin by lra. rewrite rdiv_Fin by lra.
  rewrite rsub_Fin by lra. reflexivity.
Qed.

Lemma normalize_entry_constant fmax lo hi w c :
  (0 <= fmax)%Q → (lo == c)%Q → (hi == c)%Q → (w == c)%Q →
  rsub fmax (rdiv fmax (rscale fmax 2 (rsub fmax (Fin w) (Fin lo)))
                       (rsub fmax (Fin hi) (Fin lo))) (Fin 1)
  = NaN.
Proof.
  intros Hf Hlo Hhi Hw.
  rewrite (rsub_Fin fmax w lo), (rsub_Fin fmax hi lo) by lra.
  rewrite rscale_Fin by lra. unfold rdiv. simpl.
  rewrite fdivQ_zero_zero; [done| |]; lra.
Qed.

Lemma rescale_affine lo hi w :
  (lo < hi)%Q →
  (rescale lo hi w == 2 / (hi - lo) * w + (- (2 * lo / (hi - lo)) - 1))%Q.
Proof. intros Hlt. unfold rescale. field. lra. Qed.

Lemma rescale_proper lo hi a b : (a == b → rescale lo hi a == rescale lo hi b)%Q.
Proof. intros Hab. unfold rescale. by rewrite Hab. Qed.

Lemma rescale_mono lo hi a b :
  (lo < hi → a <= b → rescale lo hi a <= rescale lo hi b)%Q.
Proof.
  intros Hlt Hab. rewrite !rescale_affine by done.
  assert (Hpos : (0 < 2 / (hi - lo))%Q).
  { apply Qlt_shift_div_l; lra. }
  assert (Hmul : (2 / (hi - lo) * a <= 2 / (hi - lo) * b)%Q).
  { rewrite !(Qmult_comm (2 / (hi - lo))). apply Qmult_le_compat_r; lra. }
  lra.
Qed.

Lemma rescale_ends lo hi :
  (lo < hi → rescale lo hi lo == -1 ∧ rescale lo hi hi == 1)%Q.
Proof. intros Hlt. unfold rescale. split; field; lra. Qed.

Lemma normalize_unfold fmax sh v l :
  let lo := Qmin_list v l in
  let hi := Qmax_list v l in
  normalize_minus_one_to_one fmax (mkTensor sh (v :: l))
  = Ok (mkTensor sh
          ((λ w, rsub fmax (rdiv fmax (rscale fmax 2 (rsub fmax (Fin w) (Fin lo)))
                                      (rsub fmax (Fin hi) (Fin lo))) (Fin 1))
           <$> v :: l)).
Proof. reflexivity. Qed.

(** Within the range the result is the exact rescaling of every entry. *)
Lemma normalize_in_range fmax sh v l :
  (2 <= fmax)%Q → (Qmin_list v l < Qmax_list v l)%Q →
  (2 * (Qmax_list v l - Qmin_list v l) <= fmax)%Q →
  normalize_minus_one_to_one fmax (mkTensor sh (v :: l))
  = Ok (mkTensor sh (Fin <$> (rescale (Qmin_list v l) (Qmax_list v l) <$> v :: l))).
Proof.
  intros Hf Hlt Hr. rewrite normalize_unfold. cbv zeta.
  do 2 f_equal. rewrite <- list_fmap_compose.
  apply Forall_fmap_ext_1. eapply Forall_impl; [apply between_min_max|].
  intros w [Hw1 Hw2]. simpl. by apply normalize_entry.
Qed.

(** C9. A tensor with finite entries, the largest strictly above the
    smallest; [fmax] is the largest finite number of its dtype.  When
    [2 * (x_max - x_min)] does not exceed [fmax],
    [normalize_minus_one_to_one x] has the shape of [x], its entries are
    [a * v + b] for one slope [a > 0] and one offset [b], its smallest entry
    is -1 and its largest is 1.  When all entries of a non-empty [x] are
    equal, [x_max - x_min] is 0 and every entry of the result is NaN. *)
Theorem normalize_minus_one_to_one_spec (fmax : Q) (x : Tensor Q) :
  (2 <= fmax)%Q →
  (∀ lo hi, torch_min x = Ok lo → torch_max x = Ok hi → (lo < hi)%Q →
     (2 * (hi - lo) <= fmax)%Q →
     ∃ ys,
       normalize_minus_one_to_one fmax x = Ok (mkTensor (shape x) (Fin <$> ys))
       ∧ (∃ a b, (0 < a)%Q ∧ Forall2 (λ y v, y == a * v + b)%Q ys (data x))
       ∧ (∃ m, torch_min (mkTensor (shape x) ys) = Ok m ∧ (m == -1)%Q)
       ∧ (∃ m, torch_max (mkTensor (shape x) ys) = Ok m ∧ (m == 1)%Q))
  ∧ (∀ c, data x ≠ [] → Forall (λ v, v == c)%Q (data x) →
     ∃ lo hi, torch_min x = Ok lo ∧ torch_max x = Ok hi ∧ (hi - lo == 0)%Q
       ∧ normalize_minus_one_to_one fmax x
         = Ok (mkTensor (shape x) ((λ _, NaN) <$> data x))
       ∧ Forall (λ r, is_finite r = false) ((λ _ : Q, NaN) <$> data x)).
Proof.
  intros Hf. destruct x as [sh d]. split.
  - intros lo hi Hlo Hhi Hlt. unfold torch_min, torch_max in Hlo, Hhi.
    simpl in Hlo, Hhi. destruct d as [|v l]; [done|].
    injection Hlo as Hlo. injection Hhi as Hhi. simpl shape. simpl data.
    intros Hr. exists (rescale lo hi <$> (v :: l)). subst lo hi.
    set (lo := Qmin_list v l) in *. set (hi := Qmax_list v l) in *.
    split; [by apply normalize_in_range|]. split; [|split].
    + exists (2 / (hi - lo))%Q, (- (2 * lo / (hi - lo)) - 1)%Q. split.
      * apply Qlt_shift_div_l; lra.
      * apply Forall2_fmap_l, Forall_Forall2_diag, Forall_forall.
        intros w _. by apply rescale_affine.
    + eexists. split; [reflexivity|].
      rewrite Qmin_list_mono;
        [| apply rescale_proper | intros a b; by apply rescale_mono].
      by apply rescale_ends.
    + eexists. split; [reflexivity|].
      rewrite Qmax_list_mono;
        [| apply rescale_proper | intros a b; by apply rescale_mono].
      by apply rescale_ends.
  - intros c Hne Hc. simpl in Hne, Hc. destruct d as [|v l]; [done|].
    inversion Hc as [|? ? Hv Hl]; subst.
    pose proof (Qmin_list_const c v l Hv Hl) as Hmin.
    pose proof (Qmax_list_const c v l Hv Hl) as Hmax.
    eexists _, _. split; [reflexivity|]. split; [reflexivity|].
    split; [by rewrite Hmin, Hmax; ring|]. split.
    + rewrite normalize_unfold. cbv zeta. cbn [shape data]. do 2 f_equal.
      apply Forall_fmap_ext_1. eapply Forall_impl; [exact Hc|].
      intros w Hw. simpl. apply (normalize_entry_constant fmax _ _ w c); [lra|done..].
    + apply Forall_fmap, Forall_forall. done.
Qed.

Lemma normalize_minus_one_to_one_spec_witness :
  (2 <= float32_max)%Q
  ∧ (∃ ys,
       normalize_minus_one_to_one float32_max img_a
       = Ok (mkTensor (shape img_a) (Fin <$> ys))
       ∧ (∃ a b, (0 < a)%Q ∧ Forall2 (λ y v, y == a * v + b)%Q ys (data img_a))
       ∧ (∃ m, torch_min (mkTensor (shape img_a) ys) = Ok m ∧ (m == -1)%Q)
       ∧ (∃ m, torch_max (mkTensor (shape img_a) ys) = Ok m ∧ (m == 1)%Q))
  ∧ (∃ lo hi, torch_min const_t = Ok lo ∧ torch_max const_t = Ok hi
       ∧ (hi - lo == 0)%Q
       ∧ normalize_minus_one_to_one float32_max const_t
         = Ok (mkTensor (shape const_t) ((λ _, NaN) <$> data const_t))
       ∧ Forall (λ r, is_finite r = false) ((λ _ : Q, NaN) <$> data const_t)).
Proof.
  assert (Hf : (2 <= float32_max)%Q) by (by vm_compute).
  split; [exact Hf|]. split.
  - apply (proj1 (normalize_minus_one_to_one_spec float32_max img_a Hf)
             1%Q 4%Q eq_refl eq_refl eq_refl).
    by vm_compute.
  - apply (proj2 (normalize_minus_one_to_one_spec float32_max const_t Hf) 3%Q);
      [discriminate|].
    repeat constructor.
Defined.

(** The float32 tensor [0, 2^126, 2^127]: its largest entry is above its
    smallest, and the result is [-1, 0, inf], since [2 * (2^127 - 0)] is
    beyond the largest float32 number.  The largest entry of the result is
    not 1. *)
Lemma normalize_minus_one_to_one_counterexample :
  (∃ lo hi, torch_min wide_t = Ok lo ∧ torch_max wide_t = Ok hi ∧ (lo < hi)%Q)
  ∧ (∃ a b,
       normalize_minus_one_to_one float32_max wide_t
       = Ok (mkTensor [3] [Fin a; Fin b; PInf])
       ∧ (a == -1)%Q ∧ (b == 0)%Q)
  ∧ ¬ ∃ ys, normalize_minus_one_to_one float32_max wide_t
            = Ok (mkTensor (shape wide_t) (Fin <$> ys)).
Proof.
  split; [|split].
  - eexists _, _. split; [reflexivity|]. split; [reflexivity|]. by vm_compute.
  - eexists _, _. split; [vm_compute; reflexivity|]. split; by vm_compute.
  - intros [ys Hys]. vm_compute in Hys.
    destruct ys as [|? [|? [|y ?]]]; try discriminate.
Qed.

(** ** Computed values *)

Lemma feq_refl u : feq u u.
Proof. by destruct u; simpl. Qed.

Lemma feq_sym u v : feq u v → feq v u.
Proof. destruct u, v; simpl; try done; intros H; by symmetry. Qed.

Lemma feq_trans u v w : feq u v → feq v w → feq u w.
Proof. destruct u, v, w; simpl; try done; intros H1 H2; by rewrite H1. Qed.

Lemma fadd_assoc u v w : feq (fadd (fadd u v) w) (fadd u (fadd v w)).
Proof. destruct u, v, w; simpl; try done; ring. Qed.

Lemma fadd_0_r u : feq (fadd u (Fin 0)) u.
Proof. destruct u; simpl; try done; ring. Qed.

Lemma tensor_feq_refl t : tensor_feq t t.
Proof. split; [done|]. apply Forall_Forall2_diag, Forall_forall. intros; apply feq_refl. Qed.

Lemma res_feq_refl r : res_feq r r.
Proof. destruct r; simpl; [apply tensor_feq_refl | done]. Qed.

Lemma res_feq_scalar u v : feq u v → res_feq (Ok (scalar u)) (Ok (scalar v)).
Proof. intros H. split; [done|]. by repeat constructor. Qed.

(** ** The masked losses return 0-dimensional tensors *)

Lemma masked_ratio_scalar e m n t :
  masked_ratio e m n = Ok t → ∃ v, t = scalar v.
Proof.
  unfold masked_ratio. destruct (binop Qmult e m) as [p|]; simpl; [|done].
  intros [= <-]. by eexists.
Qed.

Lemma fmap_mean_scalar (r : res (Tensor Q)) t :
  torch_mean <$> r = Ok t → ∃ v, t = scalar v.
Proof. destruct r; simpl; [|done]. intros [= <-]. by eexists. Qed.

Lemma masked_mse_loss_scalar pred gt mask t :
  masked_mse_loss pred gt mask = Ok t → ∃ v, t = scalar v.
Proof.
  destruct mask as [m|]; simpl; [|apply fmap_mean_scalar].
  destruct (F_mse_loss_none pred gt) as [e|]; simpl; [|done].
  destruct (shape_at e 1); simpl; [|done]. apply masked_ratio_scalar.
Qed.

Lemma masked_l1_loss_scalar `{External} pred gt mask t :
  masked_l1_loss pred gt mask = Ok t → ∃ v, t = scalar v.
Proof.
  destruct mask as [m|]; simpl; [|apply fmap_mean_scalar].
  destruct (resize_mask_like pred m); simpl; [|done].
  destruct (F_l1_loss_none pred gt) as [e|]; simpl; [|done].
  destruct (shape_at e 1); simpl; [|done]. apply masked_ratio_scalar.
Qed.

Lemma iadd_scalar u v : iadd (scalar u) (scalar v) = Ok (scalar (fadd u v)).
Proof. reflexivity. Qed.

(** ** VGGLoss.forward *)

Lemma VGGLoss_step_at `{External} self WS FX FY mask acc i w fx fy :
  weights self = Some WS →
  WS !! i = Some w → FX !! i = Some fx → FY !! i = Some fy →
  VGGLoss_step self FX FY mask (scalar acc) i
  = (t ← level_loss mask w fx fy; Ok (scalar (fadd acc t))).
Proof.
  intros HW Hw Hx Hy. unfold VGGLoss_step, level_loss.
  rewrite HW; simpl. rewrite Hw; simpl. rewrite Hx; simpl. rewrite Hy; simpl.
  destruct (masked_l1_loss fx fy mask) as [l|] eqn:Hl; simpl; [|done].
  destruct (masked_l1_loss_scalar _ _ _ _ Hl) as [v ->]. simpl.
  apply iadd_scalar.
Qed.

Lemma for_each_levels `{External} self WS FX FY mask idx ws fxs fys :
  weights self = Some WS →
  levels_at WS FX FY idx ws fxs fys →
  ∀ acc,
    res_feq (for_each (VGGLoss_step self FX FY mask) (scalar acc) idx)
            (s ← sum_levels mask ws fxs fys; Ok (scalar (fadd acc s))).
Proof.
  intros HW. induction 1 as [|i idx w ws fx fxs fy fys Hw Hx Hy _ IH]; intros acc.
  - simpl. apply res_feq_scalar, feq_sym, fadd_0_r.
  - simpl. rewrite (VGGLoss_step_at self WS FX FY mask acc i w fx fy) by done.
    destruct (level_loss mask w fx fy) as [t|]; simpl; [|done].
    specialize (IH (fadd acc t)).
    destruct (sum_levels mask ws fxs fys) as [s|]; simpl in *; [|done].
    destruct (for_each _ _ idx) as [r|]; simpl in *; [|done].
    destruct IH as [Hs Hd]. split; [done|].
    destruct r as [sh [|r0 [|? ?]]]; simpl in *; inversion Hd; subst.
    + constructor; [|done]. eapply feq_trans; [eassumption | apply fadd_assoc].
    + match goal with Hn : Forall2 _ (_ :: _) [] |- _ => inversion Hn end.
Qed.

Lemma Vgg16_forward_levels n x y fx fy :
  Vgg16_forward n x = Ok fx → Vgg16_forward n y = Ok fy →
  levels_at weights16 fx fy (range 0 (length fx)) weights16 fx fy.
Proof.
  unfold Vgg16_forward. intros Hx Hy.
  repeat match type of Hx with
         | context [Sequential_forward ?s ?a] =>
             destruct (Sequential_forward s a); simpl in Hx; [|done]
         end.
  repeat match type of Hy with
         | context [Sequential_forward ?s ?a] =>
             destruct (Sequential_forward s a); simpl in Hy; [|done]
         end.
  injection Hx as <-. injection Hy as <-.
  repeat (econstructor; try reflexivity).
Qed.

Lemma Vgg19_forward_levels n x y fx fy :
  Vgg19_forward n x = Ok fx → Vgg19_forward n y = Ok fy →
  levels_at weights19 fx fy (range 0 (length fx)) weights19 fx fy.
Proof.
  unfold Vgg19_forward. intros Hx Hy.
  repeat match type of Hx with
         | context [Sequential_forward ?s ?a] =>
             destruct (Sequential_forward s a); simpl in Hx; [|done]
         end.
  repeat match type of Hy with
         | context [Sequential_forward ?s ?a] =>
             destruct (Sequential_forward s a); simpl in Hy; [|done]
         end.
  injection Hx as <-. injection Hy as <-.
  repeat (econstructor; try reflexivity).
Qed.

Lemma VGGLoss_forward_documented `{External} self ws net x y mask size :
  vgg self = Some net → weights self = Some ws →
  (∀ a b fx fy, VggNet_forward net a = Ok fx → VggNet_forward net b = Ok fy →
     levels_at ws fx fy (range 0 (length fx)) ws fx fy) →
  res_feq (VGGLoss_forward self x y mask size)
          (VGGLoss_documented ws net x y mask size).
Proof.
  intros Hnet Hws Hlev. unfold VGGLoss_forward, VGGLoss_documented.
  destruct (VGGLoss_preprocess x) as [x'|]; simpl; [|done].
  destruct (VGGLoss_preprocess y) as [y'|]; simpl; [|done].
  destruct (VGGLoss_resize_mask mask size) as [mask'|]; simpl; [|done].
  rewrite Hnet. simpl.
  destruct (VggNet_forward net x') as [fx|] eqn:Hfx; simpl; [|done].
  destruct (VggNet_forward net y') as [fy|] eqn:Hfy; simpl; [|done].
  destruct (masked_l1_loss x' y' mask') as [l0|] eqn:Hl0; simpl; [|done].
  destruct (masked_l1_loss_scalar _ _ _ _ Hl0) as [v0 ->]. simpl.
  apply (for_each_levels self ws fx fy mask'); [done|]. by eapply Hlev.
Qed.

(** C1. For the two networks [VGGLoss.__init__] knows, the weights are
    [1/32, 1/16, 1/8, 1/4, 1] (vgg19) and [1/16, 1/8, 1/4, 1] (vgg16), and
    for all images and masks [forward] gives what the documentation says:
    the masked L1 loss of the preprocessed images plus the sum over the
    feature levels of weight times masked L1 loss of the feature maps (the
    mask being the one resized to [size]); it raises exactly when one of
    these parts raises. *)
Theorem VGGLoss_forward_spec `{External} (model : string) (self : VGGLoss) :
  VGGLoss_init model = Ok self →
  model = "vgg19" ∨ model = "vgg16" →
  ∃ net ws,
    vgg self = Some net ∧ weights self = Some ws
    ∧ (model = "vgg19" → ws = [1 # 32; 1 # 16; 1 # 8; 1 # 4; 1]%Q)
    ∧ (model = "vgg16" → ws = [1 # 16; 1 # 8; 1 # 4; 1]%Q)
    ∧ ∀ x y mask size,
        res_feq (VGGLoss_forward self x y mask size)
                (VGGLoss_documented ws net x y mask size).
Proof.
  intros Hinit [-> | ->]; unfold VGGLoss_init in Hinit; simpl in Hinit.
  - destruct (Vgg19_init false) as [n|]; simpl in Hinit; [|done].
    injection Hinit as <-. exists (NetVgg19 n), weights19.
    repeat split; [done|].
    intros x y mask size. apply VGGLoss_forward_documented; [done..|].
    intros a b fx fy. simpl. apply Vgg19_forward_levels.
  - destruct Vgg16_init as [n|]; simpl in Hinit; [|done].
    injection Hinit as <-. exists (NetVgg16 n), weights16.
    repeat split; [done|].
    intros x y mask size. apply VGGLoss_forward_documented; [done..|].
    intros a b fx fy. simpl. apply Vgg16_forward_levels.
Qed.

Lemma VGGLoss_forward_spec_witness :
  ∃ self, VGGLoss_init "vgg19" = Ok self
    ∧ ∃ net ws,
        vgg self = Some net ∧ weights self = Some ws
        ∧ ("vgg19" = "vgg19" → ws = [1 # 32; 1 # 16; 1 # 8; 1 # 4; 1]%Q)
        ∧ ("vgg19" = "vgg16" → ws = [1 # 16; 1 # 8; 1 # 4; 1]%Q)
        ∧ ∀ x y mask size,
            res_feq (VGGLoss_forward self x y mask size)
                    (VGGLoss_documented ws net x y mask size).
Proof.
  eexists. split; [reflexivity|].
  apply (VGGLoss_forward_spec "vgg19"); [reflexivity | by left].
Defined.

(** ** Criterion.__init__ *)

Lemma append_cons c (a b : string) :
  String.append (String c a) b = String c (String.append a b).
Proof. reflexivity. Qed.

Lemma append_nil (b : string) : String.append EmptyString b = b.
Proof. reflexivity. Qed.

Lemma prefix_spec (a s : string) :
  String.prefix a s = true ↔ ∃ post, s = String.append a post.
Proof.
  revert s. induction a as [|c a IH]; intros s; simpl.
  - split; [by exists s | by destruct s].
  - destruct s as [|d s]; simpl.
    + split; [done | by intros [post ?]].
    + destruct (Ascii.ascii_dec c d) as [->|Hne].
      * rewrite IH. split; intros [post Hp]; exists post;
          rewrite append_cons in *; congruence.
      * split; [done | intros [post Hp]; rewrite append_cons in Hp; congruence].
Qed.

Lemma contains_nil sub : contains sub EmptyString = String.prefix sub EmptyString.
Proof. unfold contains. apply orb_false_r. Qed.

Lemma contains_cons sub c s :
  contains sub (String c s) = String.prefix sub (String c s) || contains sub s.
Proof. reflexivity. Qed.

Lemma contains_spec (sub s : string) : contains sub s = true ↔ occurs sub s.
Proof.
  unfold occurs. induction s as [|c s IH].
  - rewrite contains_nil, prefix_spec. split.
    + intros [post Hp]. by exists EmptyString, post.
    + intros ([|? ?] & post & Hp); [by exists post | done].
  - rewrite contains_cons, orb_true_iff, prefix_spec, IH. split.
    + intros [[post Hp] | (pre & post & Hp)].
      * by exists EmptyString, post.
      * exists (String c pre), post. by rewrite append_cons, Hp.
    + intros ([|d pre] & post & Hp).
      * left. by exists post.
      * right. rewrite append_cons in Hp. injection Hp as -> Hp. by exists pre, post.
Qed.

Lemma add_modules_seq (features : list Layer) k lo :
  lo + k ≤ length features →
  add_modules features (seq lo k) = Ok (take k (drop lo features)).
Proof.
  revert lo. induction k as [|k IH]; intros lo Hlen; simpl.
  - by rewrite take_0.
  - destruct (features !! lo) as [l|] eqn:Hl.
    + simpl. rewrite IH by lia. simpl.
      by rewrite (drop_S _ _ _ Hl).
    + apply lookup_ge_None in Hl. lia.
Qed.

Lemma add_modules_seq_inv (features : list Layer) k lo s :
  add_modules features (seq lo k) = Ok s →
  s = take k (drop lo features) ∧ (k = 0 ∨ lo + k ≤ length features).
Proof.
  revert lo s. induction k as [|k IH]; intros lo s; simpl.
  - intros [= <-]. rewrite take_0. auto.
  - destruct (features !! lo) as [l|] eqn:Hl; simpl; [|done].
    destruct (add_modules features (seq (S lo) k)) as [s'|] eqn:Hs; simpl; [|done].
    intros [= <-]. destruct (IH _ _ Hs) as [-> Hk].
    rewrite (drop_S _ _ _ Hl). split; [done|]. right.
    apply lookup_lt_Some in Hl. lia.
Qed.

Lemma Vgg16_init_returns `{External} :
  23 ≤ length (models_vgg16_features true) → returns Vgg16_init.
Proof.
  intros Hlen. unfold Vgg16_init, range.
  rewrite !add_modules_seq by (simpl; lia). simpl. by eexists.
Qed.

Lemma Vgg19_init_returns `{External} b :
  30 ≤ length (models_vgg19_features true) → returns (Vgg19_init b).
Proof.
  intros Hlen. unfold Vgg19_init, range.
  rewrite !add_modules_seq by (simpl; lia). simpl. by eexists.
Qed.

(** C5. [Criterion.__init__] picks the loss by [loss_mode]: a [VGGLoss]
    built for that name when 'vgg' occurs in it, LPIPS for 'lpips',
    [masked_mse_loss] for 'mse', [masked_l1_loss] for 'l1', and it raises
    NotImplementedError for every other name.  With pretrained stacks of at
    least 23 and 30 modules the [VGGLoss] is always built. *)
Theorem Criterion_init_spec `{External} (args : Args) :
  let m := args_loss_mode args in
  let r := boundary_crop_ratio args in
  (occurs "vgg" m →
     Criterion_init args = (v ← VGGLoss_init m; Ok (mkCriterion r m (LF_VGGLoss v)))
     ∧ (23 ≤ length (models_vgg16_features true) →
        30 ≤ length (models_vgg19_features true) →
        ∃ v, Criterion_init args = Ok (mkCriterion r m (LF_VGGLoss v))))
  ∧ (m = "lpips" → Criterion_init args = Ok (mkCriterion r m LF_LPIPS))
  ∧ (m = "mse" → Criterion_init args = Ok (mkCriterion r m LF_masked_mse_loss))
  ∧ (m = "l1" → Criterion_init args = Ok (mkCriterion r m LF_masked_l1_loss))
  ∧ (¬ occurs "vgg" m → m ≠ "lpips" → m ≠ "mse" → m ≠ "l1" →
     Criterion_init args = Raise NotImplementedError).
Proof.
  intros m r. unfold Criterion_init. fold m r.
  split; [|split; [|split; [|split]]].
  - intros Hv. apply contains_spec in Hv. rewrite Hv.
    split; [done|]. intros H16 H19.
    assert (Hret : returns (VGGLoss_init m)).
    { unfold VGGLoss_init.
      destruct (String.eqb m "vgg16").
      - destruct (Vgg16_init_returns H16) as [n ->]. by eexists.
      - destruct (String.eqb m "vgg19"); [|by eexists].
        destruct (Vgg19_init_returns false H19) as [n ->]. by eexists. }
    destruct Hret as [v ->]. by exists v.
  - by intros ->.
  - by intros ->.
  - by intros ->.
  - intros Hv Hl Hm Hl1.
    destruct (contains "vgg" m) eqn:Hc; [by apply contains_spec in Hc|].
    apply String.eqb_neq in Hl, Hm, Hl1. by rewrite Hl, Hm, Hl1.
Qed.

Lemma Criterion_init_spec_witness :
  Criterion_init (mkArgs 0 0 "vgg16_patch")
  = (v ← VGGLoss_init "vgg16_patch";
     Ok (mkCriterion 0 "vgg16_patch" (LF_VGGLoss v)))
  ∧ Criterion_init (mkArgs 0 0 "lpips") = Ok (mkCriterion 0 "lpips" LF_LPIPS)
  ∧ Criterion_init (mkArgs 0 0 "mse") = Ok (mkCriterion 0 "mse" LF_masked_mse_loss)
  ∧ Criterion_init (mkArgs 0 0 "l1") = Ok (mkCriterion 0 "l1" LF_masked_l1_loss)
  ∧ Criterion_init (mkArgs 0 0 "ssim") = Raise NotImplementedError.
Proof.
  split; [|split; [|split; [|split]]].
  - apply (Criterion_init_spec (mkArgs 0 0 "vgg16_patch")).
    exists "", "16_patch". reflexivity.
  - by apply (Criterion_init_spec (mkArgs 0 0 "lpips")).
  - by apply (Criterion_init_spec (mkArgs 0 0 "mse")).
  - by apply (Criterion_init_spec (mkArgs 0 0 "l1")).
  - apply (Criterion_init_spec (mkArgs 0 0 "ssim")); [|done..].
    intros Hocc. apply contains_spec in Hocc. discriminate.
Defined.

(** ** Vgg16 and Vgg19 after construction *)

Lemma frozen_parameters (s : Sequential) :
  Forall (λ p, requires_grad p = false) (Sequential_parameters (freeze_layer <$> s)).
Proof.
  unfold Sequential_parameters. apply Forall_concat, Forall_fmap, Forall_fmap.
  apply Forall_forall. intros l _. simpl. apply Forall_fmap, Forall_forall. done.
Qed.

Lemma Sequential_parameters_app (s1 s2 : Sequential) :
  Sequential_parameters (s1 ++ s2)
  = Sequential_parameters s1 ++ Sequential_parameters s2.
Proof. unfold Sequential_parameters. by rewrite fmap_app, concat_app. Qed.

Lemma Vgg16_parameters_modules n :
  Vgg16_parameters n = Sequential_parameters (Vgg16_modules n).
Proof.
  unfold Vgg16_parameters, Vgg16_modules. by rewrite !Sequential_parameters_app.
Qed.

Lemma Vgg19_parameters_modules n :
  Vgg19_parameters n = Sequential_parameters (Vgg19_modules n).
Proof.
  unfold Vgg19_parameters, Vgg19_modules. by rewrite !Sequential_parameters_app.
Qed.

Lemma Vgg16_init_modules `{External} n :
  Vgg16_init = Ok n →
  Vgg16_modules n = freeze_layer <$> take 23 (models_vgg16_features true).
Proof.
  unfold Vgg16_init, range. set (f := models_vgg16_features true).
  intros Hn.
  apply bind_Ok_inv in Hn as (s1 & H1 & Hn).
  apply bind_Ok_inv in Hn as (s2 & H2 & Hn).
  apply bind_Ok_inv in Hn as (s3 & H3 & Hn).
  apply bind_Ok_inv in Hn as (s4 & H4 & Hn).
  injection Hn as <-.
  apply add_modules_seq_inv in H1 as [-> _], H2 as [-> _], H3 as [-> _], H4 as [-> _].
  unfold Vgg16_modules, Vgg16_freeze. simpl to_relu_1_2. simpl to_relu_2_2.
  simpl to_relu_3_3. simpl to_relu_4_3.
  rewrite <- !fmap_app. f_equal.
  change (drop 0 f) with f.
  rewrite !app_assoc, !take_take_drop. done.
Qed.

Lemma Vgg19_init_modules `{External} n :
  Vgg19_init false = Ok n →
  Vgg19_modules n = freeze_layer <$> take 30 (models_vgg19_features true).
Proof.
  unfold Vgg19_init, range. set (f := models_vgg19_features true).
  intros Hn.
  apply bind_Ok_inv in Hn as (s1 & H1 & Hn).
  apply bind_Ok_inv in Hn as (s2 & H2 & Hn).
  apply bind_Ok_inv in Hn as (s3 & H3 & Hn).
  apply bind_Ok_inv in Hn as (s4 & H4 & Hn).
  apply bind_Ok_inv in Hn as (s5 & H5 & Hn).
  injection Hn as <-.
  apply add_modules_seq_inv in H1 as [-> _], H2 as [-> _], H3 as [-> _],
    H4 as [-> _], H5 as [-> _].
  unfold Vgg19_modules, Vgg19_freeze. simpl slice1. simpl slice2.
  simpl slice3. simpl slice4. simpl slice5.
  rewrite <- !fmap_app. f_equal.
  change (drop 0 f) with f.
  rewrite !app_assoc, !take_take_drop. done.
Qed.

(** C7. [Vgg16()] and [Vgg19()] (with [requires_grad] left [False]) are made
    of the first 23 and 30 modules of the pretrained networks
    ([pretrained=True]), unchanged but for the flag, and every parameter
    they own has [requires_grad = False].  They are built whenever the
    pretrained stacks have that many modules. *)
Theorem Vgg_init_frozen `{External} :
  (∀ n, Vgg16_init = Ok n →
     Vgg16_modules n = freeze_layer <$> take 23 (models_vgg16_features true)
     ∧ Forall (λ p, requires_grad p = false) (Vgg16_parameters n))
  ∧ (∀ n, Vgg19_init false = Ok n →
     Vgg19_modules n = freeze_layer <$> take 30 (models_vgg19_features true)
     ∧ Forall (λ p, requires_grad p = false) (Vgg19_parameters n))
  ∧ (23 ≤ length (models_vgg16_features true) → returns Vgg16_init)
  ∧ (30 ≤ length (models_vgg19_features true) → returns (Vgg19_init false)).
Proof.
  split; [|split; [|split]].
  - intros n Hn. pose proof (Vgg16_init_modules n Hn) as Hm. split; [done|].
    rewrite Vgg16_parameters_modules, Hm. apply frozen_parameters.
  - intros n Hn. pose proof (Vgg19_init_modules n Hn) as Hm. split; [done|].
    rewrite Vgg19_parameters_modules, Hm. apply frozen_parameters.
  - apply Vgg16_init_returns.
  - apply Vgg19_init_returns.
Qed.

Lemma Vgg_init_frozen_witness :
  (∃ n, Vgg16_init = Ok n
        ∧ Vgg16_modules n = freeze_layer <$> take 23 (models_vgg16_features true)
        ∧ Forall (λ p, requires_grad p = false) (Vgg16_parameters n))
  ∧ (∃ n, Vgg19_init false = Ok n
        ∧ Vgg19_modules n = freeze_layer <$> take 30 (models_vgg19_features true)
        ∧ Forall (λ p, requires_grad p = false) (Vgg19_parameters n)).
Proof.
  split; eexists; (split; [reflexivity|]).
  - by apply (proj1 Vgg_init_frozen).
  - by apply (proj1 (proj2 Vgg_init_frozen)).
Defined.

(** The flag is what [__init__] changes: the pretrained parameters of the
    sample stack are trainable before, and [Vgg19(requires_grad=True)]
    keeps them so. *)
Example Vgg19_init_trainable :
  ∃ n, Vgg19_init true = Ok n
       ∧ Forall (λ p, requires_grad p = true) (Vgg19_parameters n).
Proof. eexists. split; [reflexivity|]. repeat constructor. Qed.

(** ** Criterion.forward *)

Lemma Criterion_forward_unfold `{External} self pred target mask imv (log : Log) :
  Criterion_forward self pred target mask imv log
  = match Criterion_crop self pred target with
    | Raise e => (log, Raise e)
    | Ok (p, t) =>
        if String.eqb (loss_mode self) "lpips" then
          match call_loss_func (loss_func self) (tmap (λ v, 2 * v - 1)%Q p)
                               (tmap (λ v, 2 * v - 1)%Q t) None with
          | Raise e => (log, Raise e)
          | Ok loss =>
              match item loss with
              | Raise e => (log, Raise e)
              | Ok v =>
                  let log1 := <["loss_perceptual" := v]> log in
                  if (imv =? 0)%Z then
                    match masked_l1_loss p t mask with
                    | Raise e => (log1, Raise e)
                    | Ok l1 =>
                        match binop fadd loss l1 with
                        | Raise e => (log1, Raise e)
                        | Ok loss' =>
                            match item l1 with
                            | Raise e => (log1, Raise e)
                            | Ok v1 => (<["loss_l1" := v1]> log1, Ok loss')
                            end
                        end
                    end
                  else (log1, Ok loss)
              end
          end
        else (log, call_loss_func (loss_func self) p t mask)
    end.
Proof.
  unfold Criterion_forward, mbind, LogM_bind, lift.
  destruct (Criterion_crop self pred target) as [[p t]|]; [|done].
  destruct (String.eqb (loss_mode self) "lpips"); [|done].
  destruct (call_loss_func _ _ _ None) as [loss|]; [|done].
  destruct (item loss) as [v|]; [|done]. unfold setitem.
  destruct (imv =? 0)%Z; [|done].
  destruct (masked_l1_loss p t mask) as [l1|]; [|done].
  destruct (binop fadd loss l1) as [loss'|]; [|done].
  by destruct (item l1).
Qed.

Lemma Criterion_init_inv `{External} args self :
  Criterion_init args = Ok self →
  crop_ratio self = boundary_crop_ratio args
  ∧ loss_mode self = args_loss_mode args
  ∧ ((contains "vgg" (loss_mode self) = true
      ∧ ∃ v, VGGLoss_init (loss_mode self) = Ok v ∧ loss_func self = LF_VGGLoss v)
     ∨ (loss_mode self = "lpips" ∧ loss_func self = LF_LPIPS)
     ∨ (loss_mode self = "mse" ∧ loss_func self = LF_masked_mse_loss)
     ∨ (loss_mode self = "l1" ∧ loss_func self = LF_masked_l1_loss)).
Proof.
  unfold Criterion_init.
  destruct (contains "vgg" (args_loss_mode args)) eqn:Hv.
  - intros Hi. apply bind_Ok_inv in Hi as (v & Hv' & Hi). injection Hi as <-.
    simpl. split; [done|]. split; [done|]. left. split; [done | by exists v].
  - destruct (String.eqb_spec (args_loss_mode args) "lpips") as [Hl|_].
    { intros [= <-]. simpl. split; [done|]. split; [done|]. right. by left. }
    destruct (String.eqb_spec (args_loss_mode args) "mse") as [Hm|_].
    { intros [= <-]. simpl. split; [done|]. split; [done|]. right. right. by left. }
    destruct (String.eqb_spec (args_loss_mode args) "l1") as [Hl1|_]; [|done].
    intros [= <-]. simpl. split; [done|]. split; [done|]. right. right. by right.
Qed.

Lemma bshape_length s1 s2 s : bshape s1 s2 = Some s → length s = length s1.
Proof.
  intros Hs. apply bshape_expandable in Hs as [H1 _].
  symmetry. by eapply Forall2_length.
Qed.

Lemma length_pad_shape r s : length s ≤ r → length (pad_shape r s) = r.
Proof. intros Hr. unfold pad_shape. rewrite length_app, length_replicate. lia. Qed.

Lemma broadcast_to_length {A} (t : Tensor A) s :
  wf t → expandable (pad_shape (length s) (shape t)) s →
  length (broadcast_to t s) = numel s.
Proof.
  intros Ht He. unfold broadcast_to. apply length_expand; [done|].
  by rewrite numel_pad_shape.
Qed.

Lemma binop_wf {A B C} (f : A → B → C) (t1 : Tensor A) (t2 : Tensor B) r :
  wf t1 → wf t2 → binop f t1 t2 = Ok r → wf r.
Proof.
  intros H1 H2. unfold binop, broadcast_shapes.
  destruct (bshape _ _) as [s|] eqn:Hs; [|done]. intros [= <-].
  pose proof (bshape_length _ _ _ Hs) as Hlen.
  rewrite length_pad_shape in Hlen by lia.
  apply bshape_expandable in Hs as [He1 He2]. rewrite <- Hlen in He1, He2.
  unfold wf. simpl. rewrite length_zip_with, !broadcast_to_length by done. lia.
Qed.

Lemma bshape_ones s : bshape s (replicate (length s) 1) = Some s.
Proof.
  induction s as [|a s IH]; simpl; [done|]. rewrite IH. simpl.
  destruct (Nat.eqb_spec a 1) as [->|?]; done.
Qed.

Lemma broadcast_shapes_scalar s : broadcast_shapes s [] = Some s.
Proof.
  unfold broadcast_shapes. simpl length. rewrite Nat.max_0_r, pad_shape_same.
  unfold pad_shape. simpl. rewrite Nat.sub_0_r, app_nil_r. apply bshape_ones.
Qed.

Lemma binop_scalar_r {A B C} (f : A → B → C) (t : Tensor A) (u : B) :
  wf t → ∃ r, binop f t (scalar u) = Ok r ∧ shape r = shape t ∧ wf r.
Proof.
  intros Ht. destruct (binop f t (scalar u)) as [r|] eqn:Hr.
  - exists r. split; [done|].
    split; [|apply (binop_wf f t (scalar u)); [done | reflexivity | done]].
    unfold binop in Hr. rewrite broadcast_shapes_scalar in Hr. by injection Hr as <-.
  - unfold binop in Hr. by rewrite broadcast_shapes_scalar in Hr.
Qed.

Lemma VGGLoss_init_inv `{External} m v :
  VGGLoss_init m = Ok v →
  vgg v = None
  ∨ (∃ n, vgg v = Some (NetVgg16 n) ∧ weights v = Some weights16)
  ∨ (∃ n, vgg v = Some (NetVgg19 n) ∧ weights v = Some weights19).
Proof.
  unfold VGGLoss_init. destruct (String.eqb m "vgg16").
  { intros Hv. apply bind_Ok_inv in Hv as (n & _ & [= <-]). right. left. by exists n. }
  destruct (String.eqb m "vgg19").
  { intros Hv. apply bind_Ok_inv in Hv as (n & _ & [= <-]). right. right. by exists n. }
  intros [= <-]. by left.
Qed.

Lemma res_feq_scalar_inv r u : res_feq r (Ok (scalar u)) → ∃ v, r = Ok (scalar v).
Proof.
  destruct r as [[sh d]|]; simpl; [|done]. intros [Hs Hd]. simpl in *. subst sh.
  inversion Hd as [|v ? d' ? _ Hd']; subst. inversion Hd'; subst. by exists v.
Qed.

Lemma VGGLoss_documented_scalar `{External} ws net x y mask size t :
  VGGLoss_documented ws net x y mask size = Ok t → ∃ v, t = scalar v.
Proof.
  unfold VGGLoss_documented. intros Ht.
  repeat (apply bind_Ok_inv in Ht as (? & _ & Ht)).
  injection Ht as <-. by eexists.
Qed.

Lemma VGGLoss_forward_scalar `{External} m v x y mask size t :
  VGGLoss_init m = Ok v → VGGLoss_forward v x y mask size = Ok t →
  ∃ u, t = scalar u.
Proof.
  intros Hv Ht.
  assert (Hdoc : ∃ ws net, res_feq (VGGLoss_forward v x y mask size)
                             (VGGLoss_documented ws net x y mask size)).
  { destruct (VGGLoss_init_inv _ _ Hv) as [Hn | [(n & Hn & Hw) | (n & Hn & Hw)]].
    - exfalso. unfold VGGLoss_forward in Ht. rewrite Hn in Ht.
      repeat (apply bind_Ok_inv in Ht as (? & ? & Ht)). done.
    - exists weights16, (NetVgg16 n). apply VGGLoss_forward_documented; [done..|].
      intros a b fx fy. simpl. apply Vgg16_forward_levels.
    - exists weights19, (NetVgg19 n). apply VGGLoss_forward_documented; [done..|].
      intros a b fx fy. simpl. apply Vgg19_forward_levels. }
  destruct Hdoc as (ws & net & Hdoc). rewrite Ht in Hdoc.
  destruct (VGGLoss_documented ws net x y mask size) as [d|] eqn:Hd; [|done].
  destruct (VGGLoss_documented_scalar _ _ _ _ _ _ _ Hd) as [u ->].
  destruct (res_feq_scalar_inv _ _ Hdoc) as [u' [= ->]]. by exists u'.
Qed.

Lemma item_Ok_inv {A} (t : Tensor A) v : item t = Ok v → data t = [v].
Proof. unfold item. destruct (data t) as [|? [|? ?]]; [done| |done]. by intros [= ->]. Qed.

Lemma Criterion_modes `{External} args self :
  Criterion_init args = Ok self →
  (loss_mode self = "lpips" → loss_func self = LF_LPIPS)
  ∧ (loss_mode self = "mse" → loss_func self = LF_masked_mse_loss)
  ∧ (loss_mode self = "l1" → loss_func self = LF_masked_l1_loss)
  ∧ (loss_mode self ≠ "lpips" → loss_func self ≠ LF_LPIPS).
Proof.
  intros Hi. destruct (Criterion_init_inv _ _ Hi) as (_ & _ & Hc).
  destruct Hc as [(Hv & v & _ & Hf) | [[Hm Hf] | [[Hm Hf] | [Hm Hf]]]];
    rewrite Hf; repeat split; intros Hm'; try done;
    rewrite Hm' in *; discriminate.
Qed.

Lemma call_loss_func_scalar `{External} args self a b mask t :
  Criterion_init args = Ok self → loss_mode self ≠ "lpips" →
  call_loss_func (loss_func self) a b mask = Ok t → ∃ v, t = scalar v.
Proof.
  intros Hi Hne. destruct (Criterion_init_inv _ _ Hi) as (_ & _ & Hc).
  destruct Hc as [(_ & v & Hv & Hf) | [[Hm Hf] | [[Hm Hf] | [Hm Hf]]]];
    rewrite Hf; simpl.
  - by apply (VGGLoss_forward_scalar (loss_mode self)).
  - done.
  - apply masked_mse_loss_scalar.
  - apply masked_l1_loss_scalar.
Qed.

(** C4. In 'lpips' mode, with [p] and [t] the (possibly cropped) prediction
    and target: the perceptual term is LPIPS on [2*p - 1] and [2*t - 1];
    when it raises or is not a one-entry tensor, [forward] raises; otherwise
    the loss is the perceptual term alone when [is_multi_view] is not 0,
    and the perceptual term plus [masked_l1_loss(p, t, mask)] when it is 0. *)
Theorem Criterion_forward_lpips `{External} args self pred target mask imv
    (log : gmap string fval) p t :
  Criterion_init args = Ok self → loss_mode self = "lpips" →
  Criterion_crop self pred target = Ok (p, t) →
  let perceptual :=
    lpips_LPIPS (tmap (λ v, 2 * v - 1)%Q p) (tmap (λ v, 2 * v - 1)%Q t) None in
  let result := (Criterion_forward self pred target mask imv log).2 in
  (∀ e, perceptual = Raise e → result = Raise e)
  ∧ ∀ loss, perceptual = Ok loss →
      (∀ e, item loss = Raise e → result = Raise e)
      ∧ ∀ v, item loss = Ok v →
          (imv ≠ 0%Z → result = Ok loss)
          ∧ (imv = 0%Z →
             result = (l1_loss ← masked_l1_loss p t mask; binop fadd loss l1_loss)).
Proof.
  intros Hi Hm Hc perceptual result. subst result.
  rewrite Criterion_forward_unfold, Hc, Hm. simpl String.eqb. cbv iota.
  destruct (Criterion_modes _ _ Hi) as (Hl & _). rewrite (Hl Hm).
  change (call_loss_func LF_LPIPS ?a ?b None) with (lpips_LPIPS a b None).
  fold perceptual. split.
  - intros e ->. done.
  - intros loss ->. split.
    + intros e ->. done.
    + intros v ->. cbv zeta. split.
      * intros Hne. apply Z.eqb_neq in Hne. by rewrite Hne.
      * intros ->. simpl Z.eqb. cbv iota.
        destruct (masked_l1_loss p t mask) as [l1|] eqn:Hl1; [|done].
        destruct (masked_l1_loss_scalar _ _ _ _ Hl1) as [u ->]. simpl.
        by destruct (binop fadd loss (scalar u)).
Qed.

Lemma Criterion_forward_lpips_witness :
  let perceptual :=
    lpips_LPIPS (tmap (λ v, 2 * v - 1)%Q img_a) (tmap (λ v, 2 * v - 1)%Q img_b) None in
  let result := (Criterion_forward crit_lpips img_a img_b (Some mask_12) 0 no_log).2 in
  (∀ e, perceptual = Raise e → result = Raise e)
  ∧ ∀ loss, perceptual = Ok loss →
      (∀ e, item loss = Raise e → result = Raise e)
      ∧ ∀ v, item loss = Ok v →
          (0%Z ≠ 0%Z → result = Ok loss)
          ∧ (0%Z = 0%Z →
             result = (l1_loss ← masked_l1_loss img_a img_b (Some mask_12);
                       binop fadd loss l1_loss)).
Proof.
  apply (Criterion_forward_lpips (mkArgs 0 0 "lpips") crit_lpips img_a img_b
           (Some mask_12) 0 no_log img_a img_b); reflexivity.
Defined.

Lemma scalar_facts {A} (u : A) :
  wf (scalar u) ∧ length (data (scalar u)) = 1 ∧ shape (scalar u) = [].
Proof. done. Qed.

Lemma demo_lpips_wf a b m t : demo_lpips a b m = Ok t → wf t.
Proof.
  unfold demo_lpips. destruct (shape a) as [|n rest]; [done|].
  intros Ht. apply bind_Ok_inv in Ht as (d & _ & [= <-]).
  unfold wf. simpl. rewrite length_fmap, length_chunks. lia.
Qed.

Lemma item_Raise {A} (t : Tensor A) :
  length (data t) ≠ 1 → item t = Raise RuntimeError.
Proof. unfold item. by destruct (data t) as [|? [|? ?]]. Qed.

Lemma item_Ok {A} (t : Tensor A) : length (data t) = 1 → ∃ v, item t = Ok v.
Proof. unfold item. destruct (data t) as [|v [|? ?]]; [done| |done]. by exists v. Qed.

Lemma masked_losses_return `{External} (p t : Tensor Q) (mask : option (Tensor Q)) :
  wf p → wf t → shape p = shape t →
  match mask with
  | None => True
  | Some m => last2 (shape m) = last2 (shape p)
              ∧ is_Some (shape p !! 1)
              ∧ is_Some (broadcast_shapes (shape p) (shape m))
  end →
  (∃ v, masked_mse_loss p t mask = Ok (scalar v))
  ∧ (∃ v, masked_l1_loss p t mask = Ok (scalar v)).
Proof.
  intros Hp Ht Hs Hm. destruct mask as [m|]; simpl.
  - destruct Hm as (Hl & [c Hc] & [s Hb]).
    unfold resize_mask_like. rewrite decide_False by (by intros ?).
    unfold F_mse_loss_none, F_l1_loss_none.
    rewrite !binop_same_shape by done. rewrite !bind_Ok.
    unfold shape_at. simpl shape. rewrite Hc. simpl of_option. rewrite !bind_Ok.
    rewrite !(masked_ratio_eq _ m c s) by done. split; by eexists.
  - unfold F_mse_loss, F_l1_loss, F_mse_loss_none, F_l1_loss_none.
    rewrite !binop_same_shape by done. split; by eexists.
Qed.

(** C6. A loss that [Criterion.forward] returns holds exactly one number: a
    0-dimensional tensor in every mode but 'lpips', whatever the batch
    size, and in 'lpips' mode a one-entry tensor.  In 'lpips' mode the call
    goes through [loss.item()]: when the output of LPIPS has not exactly
    one entry (the real one has one entry per image of the batch),
    [forward] raises and leaves the log as it was; when it has one entry
    and [is_multi_view] is not 0, [forward] returns it.  In 'mse' and 'l1'
    mode [forward] returns a 0-dimensional loss for all (cropped) images of
    one shape and any batch size, without a mask or with a mask of their
    spatial size that broadcasts against them. *)
Theorem Criterion_forward_scalar `{External} args self :
  Criterion_init args = Ok self →
  (∀ a b m t, lpips_LPIPS a b m = Ok t → wf t) →
  (∀ pred target mask imv (log log' : gmap string fval) loss,
     Criterion_forward self pred target mask imv log = (log', Ok loss) →
     wf loss ∧ length (data loss) = 1
     ∧ (loss_mode self ≠ "lpips" → shape loss = []))
  ∧ (loss_mode self = "lpips" →
     ∀ pred target mask imv (log : gmap string fval) p t out,
       Criterion_crop self pred target = Ok (p, t) →
       lpips_LPIPS (tmap (λ v, 2 * v - 1)%Q p) (tmap (λ v, 2 * v - 1)%Q t) None
       = Ok out →
       (length (data out) ≠ 1 →
        ∃ e, Criterion_forward self pred target mask imv log = (log, Raise e))
       ∧ (length (data out) = 1 → imv ≠ 0%Z →
          ∃ log', Criterion_forward self pred target mask imv log = (log', Ok out)))
  ∧ (loss_mode self = "mse" ∨ loss_mode self = "l1" →
     ∀ pred target mask imv (log : gmap string fval) p t,
       Criterion_crop self pred target = Ok (p, t) →
       wf p → wf t → shape p = shape t →
       match mask with
       | None => True
       | Some m => last2 (shape m) = last2 (shape p)
                   ∧ is_Some (shape p !! 1)
                   ∧ is_Some (broadcast_shapes (shape p) (shape m))
       end →
       ∃ v, Criterion_forward self pred target mask imv log = (log, Ok (scalar v))).
Proof.
  intros Hi Hwf. destruct (Criterion_modes _ _ Hi) as (Hlp & Hmse & Hl1 & _).
  split; [|split].
  - intros pred target mask imv log log' loss.
    rewrite Criterion_forward_unfold.
    destruct (Criterion_crop self pred target) as [[p t]|]; [|done].
    destruct (String.eqb_spec (loss_mode self) "lpips") as [Hm|Hm].
    + rewrite (Hlp Hm).
      change (call_loss_func LF_LPIPS ?a ?b None) with (lpips_LPIPS a b None).
      destruct (lpips_LPIPS _ _ None) as [l0|] eqn:Hl0; [|done].
      apply Hwf in Hl0.
      destruct (item l0) as [v|] eqn:Hv; [|done]. apply item_Ok_inv in Hv.
      cbv zeta. destruct (imv =? 0)%Z.
      * destruct (masked_l1_loss p t mask) as [l1|] eqn:Hl; [|done].
        destruct (masked_l1_loss_scalar _ _ _ _ Hl) as [u ->].
        destruct (binop_scalar_r fadd l0 u Hl0) as (r & -> & Hs & Hr).
        simpl. intros [= _ <-]. split; [done|]. split; [|done].
        rewrite Hr, Hs, <- Hl0, Hv. done.
      * intros [= _ <-]. split; [done|]. split; [|done]. by rewrite Hv.
    + intros [= _ Hc].
      destruct (call_loss_func_scalar _ _ _ _ _ _ Hi Hm Hc) as [u ->].
      destruct (scalar_facts u) as (? & ? & ?). done.
  - intros Hm pred target mask imv log p t out Hc Hout.
    rewrite Criterion_forward_unfold, Hc, Hm. simpl String.eqb. cbv iota.
    rewrite (Hlp Hm).
    change (call_loss_func LF_LPIPS ?a ?b None) with (lpips_LPIPS a b None).
    rewrite Hout. split.
    + intros Hlen. rewrite (item_Raise out Hlen). by eexists.
    + intros Hlen Himv. destruct (item_Ok out Hlen) as [v ->]. cbv zeta.
      apply Z.eqb_neq in Himv. rewrite Himv. by eexists.
  - intros Hmode pred target mask imv log p t Hc Hp Ht Hs Hmask.
    rewrite Criterion_forward_unfold, Hc.
    destruct (masked_losses_return p t mask Hp Ht Hs Hmask) as [[v1 Hv1] [v2 Hv2]].
    destruct Hmode as [Hm | Hm].
    + rewrite (Hmse Hm), Hm. simpl. rewrite Hv1. by eexists.
    + rewrite (Hl1 Hm), Hm. simpl. rewrite Hv2. by eexists.
Qed.

Lemma Criterion_forward_scalar_witness :
  (∃ log' loss,
     Criterion_forward crit_lpips img_a img_b (Some mask_12) 0 no_log = (log', Ok loss)
     ∧ wf loss ∧ length (data loss) = 1
     ∧ (loss_mode crit_lpips ≠ "lpips" → shape loss = []))
  ∧ (∃ e, Criterion_forward crit_lpips batch2_a batch2_b None 1 no_log
          = (no_log, Raise e))
  ∧ (∃ v, Criterion_forward crit_mse batch2_a batch2_b (Some batch2_b) 0 no_log
          = (no_log, Ok (scalar v))).
Proof.
  split; [|split].
  - eexists _, _. split; [by vm_compute|].
    eapply (proj1 (@Criterion_forward_scalar demo (mkArgs 0 0 "lpips") crit_lpips
                     eq_refl demo_lpips_wf)
              img_a img_b (Some mask_12) 0%Z no_log).
    vm_compute. reflexivity.
  - eapply (proj1 (proj1 (proj2 (@Criterion_forward_scalar demo (mkArgs 0 0 "lpips")
                                   crit_lpips eq_refl demo_lpips_wf))
                     eq_refl batch2_a batch2_b None 1%Z no_log batch2_a batch2_b _
                     eq_refl eq_refl)).
    vm_compute. discriminate.
  - apply (proj2 (proj2 (@Criterion_forward_scalar demo (mkArgs 0 0 "mse") crit_mse
                           eq_refl demo_lpips_wf))
             (or_introl eq_refl) batch2_a batch2_b (Some batch2_b) 0%Z no_log
             batch2_a batch2_b eq_refl eq_refl eq_refl eq_refl).
    split; [reflexivity|]. split; by eexists.
Defined.

(** A batch of two images in 'lpips' mode, with an LPIPS whose output has
    the shape of the real one, [B;1;1;1]: the inputs are valid, the mode is
    supported, [forward] raises at [loss.item()] and returns no loss. *)
Lemma Criterion_forward_scalar_counterexample :
  Criterion_init (mkArgs 0 0 "lpips") = Ok crit_lpips
  ∧ wf batch2_a ∧ wf batch2_b ∧ shape batch2_a = shape batch2_b
  ∧ (∃ out, lpips_LPIPS (tmap (λ v, 2 * v - 1)%Q batch2_a)
                        (tmap (λ v, 2 * v - 1)%Q batch2_b) None = Ok out
            ∧ shape out = [2; 1; 1; 1])
  ∧ Criterion_forward crit_lpips batch2_a batch2_b None 1 no_log
    = (no_log, Raise RuntimeError)
  ∧ ¬ ∃ log' loss,
        Criterion_forward crit_lpips batch2_a batch2_b None 1 no_log
        = (log', Ok loss).
Proof.
  assert (Hrun : Criterion_forward crit_lpips batch2_a batch2_b None 1 no_log
                 = (no_log, Raise RuntimeError)) by (by vm_compute).
  split; [reflexivity|]. split; [reflexivity|]. split; [reflexivity|].
  split; [reflexivity|].
  split; [eexists; split; [vm_compute; reflexivity | reflexivity]|].
  split; [exact Hrun|].
  intros (log' & loss & Hret). rewrite Hrun in Hret. discriminate.
Qed.

(** C8. [forward] changes [scalar_to_log] in 'lpips' mode only.  There, a
    call that returns has set 'loss_perceptual' to the one entry of the
    perceptual term, and has set 'loss_l1' to the masked L1 loss exactly
    when [is_multi_view] is 0; nothing else is touched.  In every other
    mode the dictionary is as it was, whether the call returns or raises. *)
Theorem Criterion_forward_log `{External} self pred target mask imv
    (log : gmap string fval) :
  let out := Criterion_forward self pred target mask imv log in
  (loss_mode self ≠ "lpips" → out.1 = log)
  ∧ (loss_mode self = "lpips" → ∀ loss, out.2 = Ok loss →
     ∃ p t perceptual vp,
       Criterion_crop self pred target = Ok (p, t)
       ∧ call_loss_func (loss_func self) (tmap (λ v, 2 * v - 1)%Q p)
                        (tmap (λ v, 2 * v - 1)%Q t) None = Ok perceptual
       ∧ item perceptual = Ok vp
       ∧ ((imv ≠ 0%Z ∧ out.1 = <["loss_perceptual" := vp]> log)
          ∨ (imv = 0%Z ∧ ∃ l1 v1,
               masked_l1_loss p t mask = Ok l1 ∧ item l1 = Ok v1
               ∧ out.1 = <["loss_l1" := v1]> (<["loss_perceptual" := vp]> log)))).
Proof.
  intros out. subst out. rewrite Criterion_forward_unfold. split.
  - intros Hm. apply String.eqb_neq in Hm. rewrite Hm.
    by destruct (Criterion_crop self pred target) as [[p t]|].
  - intros Hm loss. rewrite Hm. simpl String.eqb. cbv iota.
    destruct (Criterion_crop self pred target) as [[p t]|]; [|done].
    destruct (call_loss_func _ _ _ None) as [l0|] eqn:Hl0; [|done].
    destruct (item l0) as [vp|] eqn:Hvp; [|done]. cbv zeta.
    destruct (Z.eqb_spec imv 0) as [->|Hne].
    + destruct (masked_l1_loss p t mask) as [l1|] eqn:Hl1; [|done].
      destruct (binop fadd l0 l1) as [r|]; [|done].
      destruct (item l1) as [v1|] eqn:Hv1; [|done]. simpl. intros _.
      exists p, t, l0, vp. do 3 (split; [done|]).
      right. split; [done|]. by exists l1, v1.
    + simpl. intros _. exists p, t, l0, vp. do 3 (split; [done|]). by left.
Qed.

Lemma Criterion_forward_log_witness :
  (Criterion_forward crit_mse img_a img_b (Some mask_12) 0 no_log).1 = no_log
  ∧ ∃ p t perceptual vp,
      Criterion_crop crit_lpips img_a img_b = Ok (p, t)
      ∧ call_loss_func (loss_func crit_lpips) (tmap (λ v, 2 * v - 1)%Q p)
                       (tmap (λ v, 2 * v - 1)%Q t) None = Ok perceptual
      ∧ item perceptual = Ok vp
      ∧ ((0%Z ≠ 0%Z
          ∧ (Criterion_forward crit_lpips img_a img_b (Some mask_12) 0 no_log).1
            = <["loss_perceptual" := vp]> no_log)
         ∨ (0%Z = 0%Z ∧ ∃ l1 v1,
              masked_l1_loss p t (Some mask_12) = Ok l1 ∧ item l1 = Ok v1
              ∧ (Criterion_forward crit_lpips img_a img_b (Some mask_12) 0 no_log).1
                = <["loss_l1" := v1]> (<["loss_perceptual" := vp]> no_log))).
Proof.
  split.
  - by apply (proj1 (Criterion_forward_log crit_mse img_a img_b (Some mask_12) 0 no_log)).
  - eapply (proj2 (Criterion_forward_log crit_lpips img_a img_b (Some mask_12) 0 no_log));
      [reflexivity | by vm_compute].
Defined.

(** ** The definitions at work *)

Example masked_losses_run :
  masked_mse_loss img_a img_b None = Ok (scalar (Fin (6 # 4)))
  ∧ masked_mse_loss img_a img_b (Some mask_12)
    = Ok (scalar (Fin (500000000 # 200000001)))
  ∧ masked_l1_loss img_a img_b (Some mask_24)
    = Ok (scalar (Fin (300000000 # 200000001)))
  ∧ masked_l1_loss img_a empty_batch (Some mask_12) = Raise RuntimeError.
Proof. repeat split; by vm_compute. Qed.

Example normalize_run :
  normalize_minus_one_to_one float32_max img_a
  = Ok (mkTensor [1; 2; 1; 2] [Fin (-3 # 3); Fin (-1 # 3); Fin (1 # 3); Fin (3 # 3)])
  ∧ normalize_minus_one_to_one float32_max const_t = Ok (mkTensor [2] [NaN; NaN])
  ∧ normalize_minus_one_to_one float32_max empty_batch = Raise RuntimeError.
Proof. repeat split; by vm_compute. Qed.

Example VGGLoss_forward_run :
  let x := mkTensor [1; 3; 1; 1] [1; 2; 3]%Q in
  let y := mkTensor [1; 3; 1; 1] [1; 1; 1]%Q in
  (∃ self v, VGGLoss_init "vgg16" = Ok self
             ∧ VGGLoss_forward self x y None 224 = Ok (scalar (Fin v)))
  ∧ (∃ self, VGGLoss_init "vgg11" = Ok self
             ∧ VGGLoss_forward self x y None 224 = Raise AttributeError).
Proof.
  split.
  - eexists _, _. split; [reflexivity|]. vm_compute. reflexivity.
  - eexists. split; [reflexivity|]. by vm_compute.
Qed.

Example Criterion_forward_run :
  (Criterion_forward crit_mse img_a img_b None 0 no_log).2 = Ok (scalar (Fin (6 # 4)))
  ∧ (Criterion_forward crit_lpips img_a img_b (Some mask_12) 1 no_log).1
    !! "loss_l1" = None
  ∧ (Criterion_forward crit_lpips img_a img_b (Some mask_12) 0 no_log).1
    !! "loss_l1" = Some (Fin (300000000 # 200000001)).
Proof. split; [|split]; by vm_compute. Qed.

(** * Further properties *)

(** ** Values of the masked losses *)

Lemma Qsum_nonneg (l : list Q) : Forall (λ v, 0 <= v)%Q l → (0 <= Qsum l)%Q.
Proof. induction 1 as [|v l Hv _ IH]; simpl; [apply Qle_refl | lra]. Qed.

Lemma zip_with_Qmult_nonneg (l k : list Q) :
  Forall (λ v, 0 <= v)%Q l → Forall (λ v, 0 <= v)%Q k →
  Forall (λ v, 0 <= v)%Q (zip_with Qmult l k).
Proof.
  intros Hl. revert k. induction Hl as [|v l Hv _ IH]; intros k Hk; simpl; [done|].
  destruct Hk as [|w k Hw Hk]; constructor; [by apply Qmult_le_0_compat | by apply IH].
Qed.

Lemma zip_with_Qmult_zero_r (l k : list Q) :
  Forall (λ v, v == 0)%Q k → Forall (λ v, v == 0)%Q (zip_with Qmult l k).
Proof.
  intros Hk. revert l. induction Hk as [|w k Hw _ IH]; intros [|v l]; simpl;
    constructor; [|apply IH].
  rewrite Hw. ring.
Qed.

Lemma zip_with_nonneg (f : Q → Q → Q) (l k : list Q) :
  (∀ a b, 0 <= f a b)%Q → Forall (λ v, 0 <= v)%Q (zip_with f l k).
Proof.
  intros Hf. revert k. induction l as [|a l IH]; intros [|b k]; simpl; constructor; auto.
Qed.

Lemma sq_err_nonneg a b : (0 <= sq_err a b)%Q.
Proof.
  unfold sq_err. generalize (a - b)%Q. intros x.
  destruct (Qlt_le_dec x 0) as [Hx|Hx].
  - assert (Hsq : (x * x == (- x) * (- x))%Q) by ring.
    rewrite Hsq. apply Qmult_le_0_compat; lra.
  - by apply Qmult_le_0_compat.
Qed.

Lemma abs_err_nonneg a b : (0 <= abs_err a b)%Q.
Proof. apply Qabs_nonneg. Qed.

Lemma fdivQ_nonneg (a b : Q) :
  (0 <= a)%Q → (0 < b)%Q → ∃ q, fdivQ a b = Fin q ∧ (0 <= q)%Q.
Proof.
  intros Ha Hb. unfold fdivQ. destruct (Qeq_bool b 0) eqn:E.
  - apply Qeq_bool_iff in E. lra.
  - eexists. split; [reflexivity|]. apply Qle_shift_div_l; lra.
Qed.

Lemma masked_denominator_pos channels (mask : list Q) :
  Forall (λ v, 0 <= v)%Q mask → (0 < masked_denominator channels mask)%Q.
Proof.
  intros Hm. unfold masked_denominator.
  pose proof (Qsum_nonneg _ Hm) as Hs.
  assert (Hc : (0 <= inject_Z (Z.of_nat channels))%Q) by (unfold Qle; simpl; lia).
  pose proof (Qmult_le_0_compat _ _ Hc Hs) as Hp.
  assert (He : (0 < eps)%Q) by reflexivity. lra.
Qed.

Lemma binop_data_Forall (f : Q → Q → Q) (P : Q → Prop) (t1 t2 r : Tensor Q) :
  (∀ a b, P (f a b)) → binop f t1 t2 = Ok r → Forall P (data r).
Proof.
  intros Hf. unfold binop. destruct (broadcast_shapes _ _); [|done].
  intros [= <-]. simpl.
  generalize (broadcast_to t1 l), (broadcast_to t2 l).
  intros l1. induction l1 as [|a l1 IH]; intros [|b l2]; simpl; constructor; auto.
Qed.

Lemma masked_ratio_inv err mask n t :
  masked_ratio err mask n = Ok t →
  ∃ s, broadcast_shapes (shape err) (shape mask) = Some s
       ∧ t = scalar (masked_mean (broadcast_to err s) (broadcast_to mask s)
                                 n (data mask)).
Proof.
  intros Ht. destruct (broadcast_shapes (shape err) (shape mask)) as [s|] eqn:Hs.
  - exists s. split; [done|]. rewrite (masked_ratio_eq _ _ _ s Hs) in Ht. by injection Ht.
  - unfold masked_ratio, binop in Ht. by rewrite Hs in Ht.
Qed.

Lemma masked_ratio_nonneg err mask n t :
  Forall (λ v, 0 <= v)%Q (data err) → Forall (λ v, 0 <= v)%Q (data mask) →
  masked_ratio err mask n = Ok t → nonneg_loss (Ok t).
Proof.
  intros He Hm Ht. apply masked_ratio_inv in Ht as (s & _ & ->).
  destruct (fdivQ_nonneg
              (Qsum (zip_with Qmult (broadcast_to err s) (broadcast_to mask s)))
              (masked_denominator n (data mask))) as (q & Hq & Hq0).
  - apply Qsum_nonneg, zip_with_Qmult_nonneg; by apply Forall_expand.
  - by apply masked_denominator_pos.
  - exists q. split; [|done]. unfold masked_mean. by rewrite Hq.
Qed.

Lemma masked_ratio_zero_mask err mask n t :
  Forall (λ v, v == 0)%Q (data mask) →
  masked_ratio err mask n = Ok t → zero_loss (Ok t).
Proof.
  intros Hm Ht. apply masked_ratio_inv in Ht as (s & _ & ->).
  destruct (fdivQ_zero
              (Qsum (zip_with Qmult (broadcast_to err s) (broadcast_to mask s)))
              (masked_denominator n (data mask))) as (q & Hq & Hq0).
  - apply Qsum_zero, zip_with_Qmult_zero_r. by apply Forall_expand.
  - unfold masked_denominator. rewrite (Qsum_zero _ Hm).
    intros H0. assert (He : (0 < eps)%Q) by reflexivity. lra.
  - exists q. split; [|done]. unfold masked_mean. by rewrite Hq.
Qed.

Lemma unit_range_nonneg (t : Tensor Q) :
  unit_range t → Forall (λ v, 0 <= v)%Q (data t).
Proof. intros Ht. eapply Forall_impl; [exact Ht|]. by intros v [? _]. Qed.

(** X1. For images and mask weights between 0 and 1, a masked loss that
    returns is a finite number and not below zero: the 1e-8 keeps the
    denominator positive.  For [masked_l1_loss] the mask meant is the one
    applied, after the resize. *)
Theorem masked_losses_nonneg `{External} (pred gt mask : Tensor Q) :
  unit_range pred → unit_range gt →
  (unit_range mask →
   ∀ t, masked_mse_loss pred gt (Some mask) = Ok t → nonneg_loss (Ok t))
  ∧ (∀ applied, resize_mask_like pred mask = Ok applied →
     unit_range applied →
     ∀ t, masked_l1_loss pred gt (Some mask) = Ok t → nonneg_loss (Ok t)).
Proof.
  intros _ _. split.
  - intros Hm t Ht. apply unit_range_nonneg in Hm. unfold masked_mse_loss in Ht.
    apply bind_Ok_inv in Ht as (e & He & Ht).
    apply bind_Ok_inv in Ht as (n & _ & Ht).
    apply (masked_ratio_nonneg e mask n); [|done..].
    apply (binop_data_Forall sq_err _ pred gt); [apply sq_err_nonneg | done].
  - intros applied Ha Hm t Ht. apply unit_range_nonneg in Hm.
    unfold masked_l1_loss in Ht. rewrite Ha in Ht.
    rewrite bind_Ok in Ht.
    apply bind_Ok_inv in Ht as (e & He & Ht).
    apply bind_Ok_inv in Ht as (n & _ & Ht).
    apply (masked_ratio_nonneg e applied n); [|done..].
    apply (binop_data_Forall abs_err _ pred gt); [apply abs_err_nonneg | done].
Qed.

Lemma masked_losses_nonneg_witness :
  nonneg_loss (masked_mse_loss unit_a unit_b (Some mask_12))
  ∧ nonneg_loss (masked_l1_loss unit_a unit_b (Some mask_24)).
Proof.
  assert (Ha : unit_range unit_a) by (repeat constructor; by vm_compute).
  assert (Hb : unit_range unit_b) by (repeat constructor; by vm_compute).
  split.
  - eapply (proj1 (masked_losses_nonneg unit_a unit_b mask_12 Ha Hb));
      [|by vm_compute].
    repeat constructor; by vm_compute.
  - eapply (proj2 (masked_losses_nonneg unit_a unit_b mask_24 Ha Hb) mask_12);
      [by vm_compute | | by vm_compute].
    repeat constructor; by vm_compute.
Defined.

(** X2. For images with entries between 0 and 1, a mask of zeros gives the
    loss 0, not [0./0.]: this is what the 1e-8 in the denominator is for. *)
Theorem masked_losses_zero_mask `{External} (pred gt mask : Tensor Q) :
  unit_range pred → unit_range gt →
  (Forall (λ v, v == 0)%Q (data mask) →
   ∀ t, masked_mse_loss pred gt (Some mask) = Ok t → zero_loss (Ok t))
  ∧ (∀ applied, resize_mask_like pred mask = Ok applied →
     Forall (λ v, v == 0)%Q (data applied) →
     ∀ t, masked_l1_loss pred gt (Some mask) = Ok t → zero_loss (Ok t)).
Proof.
  intros _ _. split.
  - intros Hm t Ht. unfold masked_mse_loss in Ht.
    apply bind_Ok_inv in Ht as (e & He & Ht).
    apply bind_Ok_inv in Ht as (n & _ & Ht).
    by apply (masked_ratio_zero_mask e mask n).
  - intros applied Ha Hm t Ht. unfold masked_l1_loss in Ht. rewrite Ha in Ht.
    rewrite bind_Ok in Ht.
    apply bind_Ok_inv in Ht as (e & He & Ht).
    apply bind_Ok_inv in Ht as (n & _ & Ht).
    by apply (masked_ratio_zero_mask e applied n).
Qed.

Lemma masked_losses_zero_mask_witness :
  zero_loss (masked_mse_loss unit_a unit_b (Some zero_mask))
  ∧ zero_loss (masked_l1_loss unit_a unit_b (Some zero_mask)).
Proof.
  assert (Ha : unit_range unit_a) by (repeat constructor; by vm_compute).
  assert (Hb : unit_range unit_b) by (repeat constructor; by vm_compute).
  split.
  - eapply (proj1 (masked_losses_zero_mask unit_a unit_b zero_mask Ha Hb));
      [|by vm_compute].
    repeat constructor.
  - eapply (proj2 (masked_losses_zero_mask unit_a unit_b zero_mask Ha Hb) zero_mask);
      [by vm_compute | | by vm_compute].
    repeat constructor.
Defined.

Lemma mean_of_nil : mean_of [] = NaN.
Proof. reflexivity. Qed.

Lemma mean_of_nonneg (l : list Q) :
  l ≠ [] → Forall (λ v, 0 <= v)%Q l → ∃ q, mean_of l = Fin q ∧ (0 <= q)%Q.
Proof.
  intros Hne Hl. apply fdivQ_nonneg; [by apply Qsum_nonneg|].
  destruct l as [|v l]; [done|]. unfold Qlt. simpl. lia.
Qed.

(** X3. Without a mask, on a prediction and a ground truth of one shape
    with entries between 0 and 1: the loss of tensors with no entry (an
    empty batch) is NaN, the mean over nothing; with at least one entry it
    is a finite number, not below zero. *)
Theorem unmasked_losses_value `{External} (pred gt : Tensor Q) :
  wf pred → wf gt → shape pred = shape gt →
  unit_range pred → unit_range gt →
  (data pred = [] →
   masked_mse_loss pred gt None = Ok (scalar NaN)
   ∧ masked_l1_loss pred gt None = Ok (scalar NaN))
  ∧ (data pred ≠ [] →
     nonneg_loss (masked_mse_loss pred gt None)
     ∧ nonneg_loss (masked_l1_loss pred gt None)).
Proof.
  intros Hp Hg Hs _ _.
  assert (Hlen : length (data pred) = length (data gt)).
  { unfold wf in Hp, Hg. by rewrite Hp, Hg, Hs. }
  assert (Hrun : ∀ f : Q → Q → Q,
            torch_mean <$> binop f pred gt
            = Ok (scalar (mean_of (zip_with f (data pred) (data gt))))).
  { intros f. by rewrite binop_same_shape. }
  unfold masked_mse_loss, masked_l1_loss, F_mse_loss, F_l1_loss,
    F_mse_loss_none, F_l1_loss_none. rewrite !Hrun. split.
  - intros Hd. rewrite Hd. done.
  - intros Hne.
    assert (Hnn : ∀ f : Q → Q → Q, (∀ a b, 0 <= f a b)%Q →
              nonneg_loss (Ok (scalar (mean_of (zip_with f (data pred) (data gt)))))).
    { intros f Hf.
      destruct (mean_of_nonneg (zip_with f (data pred) (data gt))) as (q & Hq & Hq0).
      - destruct (data pred), (data gt); done.
      - by apply zip_with_nonneg.
      - exists q. by rewrite Hq. }
    split; [apply Hnn, sq_err_nonneg | apply Hnn, abs_err_nonneg].
Qed.

Lemma unmasked_losses_value_witness :
  (masked_mse_loss empty_batch empty_batch None = Ok (scalar NaN)
   ∧ masked_l1_loss empty_batch empty_batch None = Ok (scalar NaN))
  ∧ (nonneg_loss (masked_mse_loss unit_a unit_b None)
     ∧ nonneg_loss (masked_l1_loss unit_a unit_b None)).
Proof.
  assert (Ha : unit_range unit_a) by (repeat constructor; by vm_compute).
  assert (Hb : unit_range unit_b) by (repeat constructor; by vm_compute).
  assert (He : unit_range empty_batch) by constructor.
  split.
  - by apply (proj1 (unmasked_losses_value empty_batch empty_batch
                       eq_refl eq_refl eq_refl He He)).
  - by apply (proj2 (unmasked_losses_value unit_a unit_b
                       eq_refl eq_refl eq_refl Ha Hb)).
Defined.

(** ** Shapes the masked losses accept *)

Lemma broadcast_shapes_length s1 s2 s :
  broadcast_shapes s1 s2 = Some s → length s = length s1 `max` length s2.
Proof.
  unfold broadcast_shapes. intros Hs. apply bshape_length in Hs.
  rewrite Hs. apply length_pad_shape. lia.
Qed.

Lemma binop_shape {A B C} (f : A → B → C) t1 t2 r :
  binop f t1 t2 = Ok r → broadcast_shapes (shape t1) (shape t2) = Some (shape r).
Proof.
  unfold binop. destruct (broadcast_shapes _ _); [|done]. by intros [= <-].
Qed.

Lemma low_rank_no_channels {A} (f : Q → Q → A) (pred gt : Tensor Q) e :
  length (shape pred) ≤ 1 → length (shape gt) ≤ 1 →
  binop f pred gt = Ok e → shape_at e 1 = Raise IndexError.
Proof.
  intros Hp Hg He. apply binop_shape, broadcast_shapes_length in He.
  unfold shape_at. rewrite lookup_ge_None_2; [done | lia].
Qed.

(** X4. A mask needs images with a channel dimension: on a prediction and a
    ground truth of rank 0 or 1 the masked losses never return; in
    [masked_mse_loss] the exception is IndexError (from [shape[1]]) as soon
    as the two broadcast.  Without a mask the same tensors are fine. *)
Theorem masked_losses_need_channels `{External} (pred gt mask : Tensor Q) :
  length (shape pred) ≤ 1 → length (shape gt) ≤ 1 →
  (∀ t, masked_mse_loss pred gt (Some mask) ≠ Ok t)
  ∧ (∀ t, masked_l1_loss pred gt (Some mask) ≠ Ok t)
  ∧ (∀ s, broadcast_shapes (shape pred) (shape gt) = Some s →
       masked_mse_loss pred gt (Some mask) = Raise IndexError)
  ∧ (wf pred → wf gt → shape pred = shape gt →
       returns (masked_mse_loss pred gt None) ∧ returns (masked_l1_loss pred gt None)).
Proof.
  intros Hp Hg. split; [|split; [|split]].
  - intros t Ht. unfold masked_mse_loss in Ht.
    apply bind_Ok_inv in Ht as (e & He & Ht).
    rewrite (low_rank_no_channels sq_err pred gt e) in Ht; done.
  - intros t Ht. unfold masked_l1_loss in Ht.
    apply bind_Ok_inv in Ht as (m & _ & Ht).
    apply bind_Ok_inv in Ht as (e & He & Ht).
    rewrite (low_rank_no_channels abs_err pred gt e) in Ht; done.
  - intros s Hs. unfold masked_mse_loss, F_mse_loss_none.
    destruct (binop sq_err pred gt) as [e|] eqn:He.
    + rewrite bind_Ok. by rewrite (low_rank_no_channels sq_err pred gt e).
    + unfold binop in He. by rewrite Hs in He.
  - intros Hwp Hwg Hs. unfold masked_mse_loss, masked_l1_loss, F_mse_loss,
      F_l1_loss, F_mse_loss_none, F_l1_loss_none.
    rewrite !binop_same_shape by done. split; by eexists.
Qed.

Lemma masked_losses_need_channels_witness :
  (∀ t, masked_mse_loss vec3 vec3 (Some vec3) ≠ Ok t)
  ∧ (∀ t, masked_l1_loss vec3 vec3 (Some vec3) ≠ Ok t)
  ∧ masked_mse_loss vec3 vec3 (Some vec3) = Raise IndexError
  ∧ returns (masked_mse_loss vec3 vec3 None)
  ∧ returns (masked_l1_loss vec3 vec3 None).
Proof.
  destruct (masked_losses_need_channels vec3 vec3 vec3) as (H1 & H2 & H3 & H4);
    [simpl; lia..|].
  split; [exact H1|]. split; [exact H2|]. split; [by apply (H3 [3])|].
  by apply H4.
Defined.

(** ** Equal numbers give equal losses *)

Lemma over_zero_feq a a' : (a == a')%Q → feq (over_zero a) (over_zero a').
Proof.
  intros Ha. unfold over_zero.
  rewrite (Qeqb_comp a a' Ha 0%Q 0%Q (Qeq_refl 0%Q)),
    (Qleb_comp 0%Q 0%Q (Qeq_refl 0%Q) a a' Ha).
  apply feq_refl.
Qed.

Lemma fdivQ_feq a a' b b' :
  (a == a')%Q → (b == b')%Q → feq (fdivQ a b) (fdivQ a' b').
Proof.
  intros Ha Hb. unfold fdivQ.
  rewrite (Qeqb_comp b b' Hb 0%Q 0%Q (Qeq_refl 0%Q)).
  destruct (Qeq_bool b' 0); [by apply over_zero_feq|].
  simpl. by rewrite Ha, Hb.
Qed.

Lemma Qsum_proper (l l' : list Q) : Forall2 Qeq l l' → (Qsum l == Qsum l')%Q.
Proof.
  induction 1 as [|a a' l l' Ha _ IH]; simpl; [reflexivity|]. by rewrite Ha, IH.
Qed.

Lemma zip_with_Qmult_proper (l l' k : list Q) :
  Forall2 Qeq l l' → Forall2 Qeq (zip_with Qmult l k) (zip_with Qmult l' k).
Proof.
  intros Hl. revert k. induction Hl as [|a a' l l' Ha _ IH]; intros [|b k]; simpl;
    constructor; [by rewrite Ha | apply IH].
Qed.

Lemma zip_with_swap_Qeq (f : Q → Q → Q) (l k : list Q) :
  (∀ a b, f a b == f b a)%Q → Forall2 Qeq (zip_with f l k) (zip_with f k l).
Proof.
  intros Hf. revert k. induction l as [|a l IH]; intros [|b k]; simpl;
    constructor; [apply Hf | apply IH].
Qed.

Lemma Forall2_chunks {A} (R : A → A → Prop) n k (l l' : list A) :
  Forall2 R l l' → Forall2 (Forall2 R) (chunks n k l) (chunks n k l').
Proof.
  revert l l'. induction k as [|k IH]; intros l l' Hl; simpl; constructor.
  - by apply Forall2_take.
  - apply IH. by apply Forall2_drop.
Qed.

Lemma Forall2_concat_list {A} (R : A → A → Prop) (ls ls' : list (list A)) :
  Forall2 (Forall2 R) ls ls' → Forall2 R (concat ls) (concat ls').
Proof. induction 1; simpl; [constructor | by apply Forall2_app]. Qed.

Lemma Forall2_expand {A} (R : A → A → Prop) s t (d d' : list A) :
  Forall2 R d d' → Forall2 R (expand s t d) (expand s t d').
Proof.
  revert t d d'. induction s as [|a s IH]; intros [|b t] d d' Hd; simpl; try done.
  assert (Hrows : Forall2 (Forall2 R) (expand s t <$> chunks (numel s) a d)
                    (expand s t <$> chunks (numel s) a d')).
  { apply Forall2_fmap. eapply Forall2_impl; [by apply Forall2_chunks|].
    intros c c' Hc. by apply IH. }
  destruct (a =? b).
  - by apply Forall2_concat_list.
  - apply Forall2_concat_list, Forall2_replicate. by apply Forall2_concat_list.
Qed.

Lemma torch_mean_proper (e1 e2 : Tensor Q) :
  Forall2 Qeq (data e1) (data e2) → tensor_feq (torch_mean e1) (torch_mean e2).
Proof.
  intros Hd. split; [done|]. simpl. constructor; [|done].
  apply fdivQ_feq; [by apply Qsum_proper|].
  by rewrite (Forall2_length _ _ _ Hd).
Qed.

Lemma masked_ratio_proper (e1 e2 mask : Tensor Q) n :
  shape e1 = shape e2 → Forall2 Qeq (data e1) (data e2) →
  res_feq (masked_ratio e1 mask n) (masked_ratio e2 mask n).
Proof.
  intros Hs Hd.
  destruct (broadcast_shapes (shape e1) (shape mask)) as [s|] eqn:Hb.
  - rewrite (masked_ratio_eq e1 mask n s Hb).
    rewrite Hs in Hb. rewrite (masked_ratio_eq e2 mask n s Hb).
    apply res_feq_scalar, fdivQ_feq; [|reflexivity].
    apply Qsum_proper, zip_with_Qmult_proper.
    unfold broadcast_to. rewrite Hs. by apply Forall2_expand.
  - unfold masked_ratio, binop. rewrite Hb. rewrite Hs in Hb. by rewrite Hb.
Qed.

Lemma bshape_comm s1 s2 : bshape s1 s2 = bshape s2 s1.
Proof.
  revert s2. induction s1 as [|a s1 IH]; intros [|b s2]; simpl; try done.
  rewrite IH. destruct (bshape s2 s1) as [r|]; simpl; [|done].
  destruct (Nat.eqb_spec a b) as [->|Hab].
  - by rewrite Nat.eqb_refl.
  - destruct (Nat.eqb_spec b a) as [->|_]; [done|].
    destruct (Nat.eqb_spec a 1) as [->|Ha], (Nat.eqb_spec b 1) as [->|Hb]; done.
Qed.

Lemma broadcast_shapes_comm s1 s2 : broadcast_shapes s1 s2 = broadcast_shapes s2 s1.
Proof. unfold broadcast_shapes. rewrite Nat.max_comm. apply bshape_comm. Qed.

Lemma binop_swap (f : Q → Q → Q) (p g : Tensor Q) :
  (∀ a b, f a b == f b a)%Q →
  match binop f p g, binop f g p with
  | Ok e1, Ok e2 => shape e1 = shape e2 ∧ Forall2 Qeq (data e1) (data e2)
  | Raise x1, Raise x2 => x1 = x2
  | _, _ => False
  end.
Proof.
  intros Hf. unfold binop. rewrite (broadcast_shapes_comm (shape g)).
  destruct (broadcast_shapes (shape p) (shape g)) as [s|]; [|done].
  split; [done|]. simpl. by apply zip_with_swap_Qeq.
Qed.

Lemma sq_err_swap a b : (sq_err a b == sq_err b a)%Q.
Proof. unfold sq_err. ring. Qed.

Lemma abs_err_swap a b : (abs_err a b == abs_err b a)%Q.
Proof.
  unfold abs_err. assert (Hd : (a - b == - (b - a))%Q) by ring.
  rewrite Hd. apply Qabs_opp.
Qed.

Lemma masked_tail_swap (f : Q → Q → Q) (p g mask : Tensor Q) :
  (∀ a b, f a b == f b a)%Q →
  res_feq (e ← binop f p g; n ← shape_at e 1; masked_ratio e mask n)
          (e ← binop f g p; n ← shape_at e 1; masked_ratio e mask n).
Proof.
  intros Hf. pose proof (binop_swap f p g Hf) as Hsw.
  destruct (binop f p g) as [e1|], (binop f g p) as [e2|]; try done.
  destruct Hsw as [Hs Hd]. rewrite !bind_Ok. unfold shape_at. rewrite Hs.
  destruct (shape e2 !! 1) as [n|]; simpl; [|done].
  by apply masked_ratio_proper.
Qed.

Lemma mean_swap (f : Q → Q → Q) (p g : Tensor Q) :
  (∀ a b, f a b == f b a)%Q →
  res_feq (torch_mean <$> binop f p g) (torch_mean <$> binop f g p).
Proof.
  intros Hf. pose proof (binop_swap f p g Hf) as Hsw.
  destruct (binop f p g) as [e1|], (binop f g p) as [e2|]; try done.
  simpl. apply torch_mean_proper, Hsw.
Qed.

(** X5. The losses do not tell prediction from ground truth:
    [masked_mse_loss(a, b, mask)] and [masked_mse_loss(b, a, mask)] are the
    same number or the same exception, for every mask and for no mask; so
    are the two [masked_l1_loss] calls when [a] and [b] have the same last
    two dimensions (the mask is resized to those of the first argument). *)
Theorem masked_losses_symmetric `{External} (a b : Tensor Q) (mask : option (Tensor Q)) :
  res_feq (masked_mse_loss a b mask) (masked_mse_loss b a mask)
  ∧ (last2 (shape a) = last2 (shape b) →
     res_feq (masked_l1_loss a b mask) (masked_l1_loss b a mask)).
Proof.
  split.
  - destruct mask as [m|]; simpl.
    + apply masked_tail_swap, sq_err_swap.
    + apply mean_swap, sq_err_swap.
  - intros Hl. destruct mask as [m|]; simpl.
    + unfold resize_mask_like. rewrite Hl.
      destruct (if decide (last2 (shape m) ≠ last2 (shape b)) then _ else _) as [m'|];
        [|done].
      rewrite !bind_Ok. apply masked_tail_swap, abs_err_swap.
    + apply mean_swap, abs_err_swap.
Qed.

Lemma masked_losses_symmetric_witness :
  res_feq (masked_mse_loss img_a img_b (Some mask_12))
          (masked_mse_loss img_b img_a (Some mask_12))
  ∧ res_feq (masked_l1_loss img_a img_b (Some mask_24))
            (masked_l1_loss img_b img_a (Some mask_24)).
Proof.
  split.
  - apply (proj1 (masked_losses_symmetric img_a img_b (Some mask_12))).
  - by apply (proj2 (masked_losses_symmetric img_a img_b (Some mask_24))).
Defined.

(** ** What the mask hides *)

Lemma masked_sum_agree (f : Q → Q → Q) (d1 d2 M : list Q) :
  (∀ a a' b, a == a' → f a b == f a' b)%Q →
  Forall3 (λ p1 p2 m, m == 0 ∨ p1 == p2)%Q d1 d2 M →
  ∀ g, (Qsum (zip_with Qmult (zip_with f d1 g) M)
        == Qsum (zip_with Qmult (zip_with f d2 g) M))%Q.
Proof.
  intros Hf. induction 1 as [|p1 p2 m d1 d2 M Hm _ IH]; intros [|b g]; simpl;
    try reflexivity.
  rewrite (IH g). destruct Hm as [Hm | Hp].
  - rewrite Hm. ring.
  - by rewrite (Hf _ _ b Hp).
Qed.

Lemma masked_on_same_shape (f : Q → Q → Q) (pred gt mask : Tensor Q) :
  wf pred → wf gt → shape pred = shape gt →
  broadcast_shapes (shape gt) (shape mask) = Some (shape gt) →
  (e ← binop f pred gt; n ← shape_at e 1; masked_ratio e mask n)
  = (n ← of_option IndexError (shape gt !! 1);
     Ok (scalar (masked_mean (zip_with f (data pred) (data gt))
                             (broadcast_to mask (shape gt)) n (data mask)))).
Proof.
  intros Hp Hg Hs Hb. rewrite binop_same_shape by done. rewrite bind_Ok.
  unfold shape_at. simpl shape. rewrite Hs.
  destruct (shape gt !! 1) as [n|]; simpl; [|done].
  rewrite (masked_ratio_eq _ mask n (shape gt)) by done. do 3 f_equal.
  apply (broadcast_to_same (mkTensor (shape gt) (zip_with f (data pred) (data gt)))).
  unfold wf in *. simpl. rewrite length_zip_with_same; [by rewrite Hp, Hs|].
  by rewrite Hp, Hg, Hs.
Qed.

Lemma sq_err_proper a a' b : (a == a' → sq_err a b == sq_err a' b)%Q.
Proof. intros Ha. unfold sq_err. by rewrite Ha. Qed.

Lemma abs_err_proper a a' b : (a == a' → abs_err a b == abs_err a' b)%Q.
Proof. intros Ha. unfold abs_err. by rewrite Ha. Qed.

Lemma masked_tail_agree (f : Q → Q → Q) (pred1 pred2 gt mask : Tensor Q) :
  (∀ a a' b, a == a' → f a b == f a' b)%Q →
  wf pred1 → wf pred2 → wf gt → shape pred1 = shape gt → shape pred2 = shape gt →
  broadcast_shapes (shape gt) (shape mask) = Some (shape gt) →
  Forall3 (λ p1 p2 m, m == 0 ∨ p1 == p2)%Q
          (data pred1) (data pred2) (broadcast_to mask (shape gt)) →
  res_feq (e ← binop f pred1 gt; n ← shape_at e 1; masked_ratio e mask n)
          (e ← binop f pred2 gt; n ← shape_at e 1; masked_ratio e mask n).
Proof.
  intros Hf H1 H2 Hg Hs1 Hs2 Hb Hagree.
  rewrite !masked_on_same_shape by done.
  destruct (shape gt !! 1) as [n|]; simpl; [|done].
  apply res_feq_scalar, fdivQ_feq; [|reflexivity].
  by apply masked_sum_agree.
Qed.

(** X6. Entries the mask weighs with 0 do not reach the loss: for images
    with entries between 0 and 1, two predictions of the shape of the ground
    truth that agree wherever the mask, laid out over that shape, is not 0
    get the same masked loss. *)
Theorem masked_out_entries_ignored `{External} (pred1 pred2 gt mask : Tensor Q) :
  wf pred1 → wf pred2 → wf gt → shape pred1 = shape gt → shape pred2 = shape gt →
  unit_range pred1 → unit_range pred2 → unit_range gt →
  (broadcast_shapes (shape gt) (shape mask) = Some (shape gt) →
   Forall3 (λ p1 p2 m, m == 0 ∨ p1 == p2)%Q
           (data pred1) (data pred2) (broadcast_to mask (shape gt)) →
   res_feq (masked_mse_loss pred1 gt (Some mask))
           (masked_mse_loss pred2 gt (Some mask)))
  ∧ (∀ applied, resize_mask_like pred1 mask = Ok applied →
     broadcast_shapes (shape gt) (shape applied) = Some (shape gt) →
     Forall3 (λ p1 p2 m, m == 0 ∨ p1 == p2)%Q
             (data pred1) (data pred2) (broadcast_to applied (shape gt)) →
     res_feq (masked_l1_loss pred1 gt (Some mask))
             (masked_l1_loss pred2 gt (Some mask))).
Proof.
  intros H1 H2 Hg Hs1 Hs2 _ _ _. split.
  - intros Hb Hagree. apply masked_tail_agree; try done. apply sq_err_proper.
  - intros applied Ha Hb Hagree. unfold masked_l1_loss.
    assert (Ha2 : resize_mask_like pred2 mask = Ok applied).
    { unfold resize_mask_like in *. by rewrite Hs2, <- Hs1. }
    rewrite Ha, Ha2, !bind_Ok.
    apply masked_tail_agree; try done. apply abs_err_proper.
Qed.

Lemma masked_out_entries_ignored_witness :
  res_feq (masked_mse_loss unit_a unit_b (Some mask_12))
          (masked_mse_loss unit_c unit_b (Some mask_12))
  ∧ res_feq (masked_l1_loss unit_a unit_b (Some mask_24))
            (masked_l1_loss unit_c unit_b (Some mask_24)).
Proof.
  assert (Ha : unit_range unit_a) by (repeat constructor; by vm_compute).
  assert (Hb : unit_range unit_b) by (repeat constructor; by vm_compute).
  assert (Hc : unit_range unit_c) by (repeat constructor; by vm_compute).
  destruct (masked_out_entries_ignored unit_a unit_c unit_b mask_12
              eq_refl eq_refl eq_refl eq_refl eq_refl Ha Hc Hb) as [Hmse _].
  destruct (masked_out_entries_ignored unit_a unit_c unit_b mask_24
              eq_refl eq_refl eq_refl eq_refl eq_refl Ha Hc Hb) as [_ Hl1].
  split.
  - apply Hmse; [reflexivity|]. vm_compute.
    repeat constructor; first [by left | by right].
  - apply (Hl1 mask_12); [reflexivity | reflexivity |]. vm_compute.
    repeat constructor; first [by left | by right].
Defined.

(** ** VGGLoss.preprocess and the networks it feeds *)

Lemma bshape_1311 B C H W :
  bshape [B; C; H; W] [1; 3; 1; 1]
  = if (C =? 3) || (C =? 1) then Some [B; 3; H; W] else None.
Proof.
  simpl.
  repeat match goal with
         | |- context [Nat.eqb ?a ?b] =>
             destruct (Nat.eqb_spec a b); subst; simpl; try lia
         end; done.
Qed.

Lemma binop_1311 (f : Q → Q → Q) (x c : Tensor Q) B C H W :
  shape x = [B; C; H; W] → shape c = [1; 3; 1; 1] → wf x → wf c →
  (C = 3 ∨ C = 1 → ∃ y, binop f x c = Ok y ∧ shape y = [B; 3; H; W] ∧ wf y)
  ∧ (C ≠ 3 → C ≠ 1 → binop f x c = Raise RuntimeError).
Proof.
  intros Hx Hc Hwx Hwc.
  assert (Hb : broadcast_shapes (shape x) (shape c)
               = if (C =? 3) || (C =? 1) then Some [B; 3; H; W] else None).
  { rewrite Hx, Hc. apply bshape_1311. }
  split.
  - intros HC.
    assert (Hb' : broadcast_shapes (shape x) (shape c) = Some [B; 3; H; W]).
    { rewrite Hb. by destruct HC as [-> | ->]. }
    destruct (binop f x c) as [y|] eqn:Hy.
    + exists y. split; [done|]. split; [|by apply (binop_wf f x c)].
      apply binop_shape in Hy. rewrite Hb' in Hy. by injection Hy.
    + unfold binop in Hy. by rewrite Hb' in Hy.
  - intros H3 H1. unfold binop. rewrite Hb.
    apply Nat.eqb_neq in H3, H1. by rewrite H3, H1.
Qed.

(** X7. [VGGLoss.preprocess] on a batch of shape [B;C;H;W]: three channels
    give a tensor of the same shape; one channel is broadcast against the
    three means and gives three channels; any other number of channels
    raises. *)
Theorem VGGLoss_preprocess_channels (x : Tensor Q) B C H W :
  shape x = [B; C; H; W] → wf x →
  (C = 3 ∨ C = 1 →
   ∃ y, VGGLoss_preprocess x = Ok y ∧ shape y = [B; 3; H; W] ∧ wf y)
  ∧ (C ≠ 3 → C ≠ 1 → VGGLoss_preprocess x = Raise RuntimeError).
Proof.
  intros Hx Hwx. unfold VGGLoss_preprocess.
  destruct (binop_1311 Qminus x mean_1311 B C H W Hx eq_refl Hwx eq_refl)
    as [Hok Hbad].
  split.
  - intros HC. destruct (Hok HC) as (d & -> & Hd & Hwd). rewrite bind_Ok.
    destruct (binop_1311 Qdiv d std_1311 B 3 H W Hd eq_refl Hwd eq_refl) as [Hok' _].
    apply Hok'. by left.
  - intros H3 H1. by rewrite (Hbad H3 H1).
Qed.

Lemma VGGLoss_preprocess_channels_witness :
  (∃ y, VGGLoss_preprocess rgb_px = Ok y ∧ shape y = [1; 3; 1; 1] ∧ wf y)
  ∧ (∃ y, VGGLoss_preprocess one_px = Ok y ∧ shape y = [1; 3; 1; 1] ∧ wf y)
  ∧ VGGLoss_preprocess img_a = Raise RuntimeError.
Proof.
  split; [|split].
  - apply (proj1 (VGGLoss_preprocess_channels rgb_px 1 3 1 1 eq_refl eq_refl)).
    by left.
  - apply (proj1 (VGGLoss_preprocess_channels one_px 1 1 1 1 eq_refl eq_refl)).
    by right.
  - by apply (proj2 (VGGLoss_preprocess_channels img_a 1 2 1 2 eq_refl eq_refl)).
Defined.

Lemma VGGLoss_preprocess_rgb (x : Tensor Q) B H W :
  shape x = [B; 3; H; W] → wf x → returns (VGGLoss_preprocess x).
Proof.
  intros Hx Hwx. unfold VGGLoss_preprocess.
  destruct (binop_1311 Qminus x mean_1311 B 3 H W Hx eq_refl Hwx eq_refl)
    as [Hok _].
  destruct Hok as (d & -> & Hd & Hwd); [by left|]. rewrite bind_Ok.
  destruct (binop_1311 Qdiv d std_1311 B 3 H W Hd eq_refl Hwd eq_refl) as [Hok' _].
  destruct Hok' as (y & -> & _); [by left|]. by exists y.
Qed.

Lemma VGGLoss_no_network `{External} (v : VGGLoss) x y mask size :
  vgg v = None →
  (∀ t, VGGLoss_forward v x y mask size ≠ Ok t)
  ∧ ∀ x' y' mask',
      VGGLoss_preprocess x = Ok x' → VGGLoss_preprocess y = Ok y' →
      VGGLoss_resize_mask mask size = Ok mask' →
      VGGLoss_forward v x y mask size = Raise AttributeError.
Proof.
  intros Hv. unfold VGGLoss_forward. rewrite Hv. split.
  - intros t Ht. repeat (apply bind_Ok_inv in Ht as (? & ? & Ht)). done.
  - intros x' y' mask' -> -> ->. done.
Qed.

(** X8. A [loss_mode] that contains 'vgg' but is neither 'vgg16' nor
    'vgg19' gets through [Criterion.__init__], with a [VGGLoss] that has no
    network and no weights; [forward] on that object never returns a loss
    and leaves the log alone, and when the crop and the preprocessing go
    through (no crop, three channels, no mask) it raises AttributeError. *)
Theorem Criterion_unknown_vgg `{External} (args : Args) :
  occurs "vgg" (args_loss_mode args) →
  args_loss_mode args ≠ "vgg16" → args_loss_mode args ≠ "vgg19" →
  ∃ self,
    Criterion_init args = Ok self
    ∧ loss_func self = LF_VGGLoss (mkVGGLoss None None)
    ∧ ∀ pred target mask imv (log : gmap string fval),
        (∀ t, (Criterion_forward self pred target mask imv log).2 ≠ Ok t)
        ∧ (Criterion_forward self pred target mask imv log).1 = log
        ∧ ∀ B Hh W,
            (boundary_crop_ratio args <= 0)%Q →
            shape pred = [B; 3; Hh; W] → wf pred →
            shape target = [B; 3; Hh; W] → wf target →
            Criterion_forward self pred target None imv log
            = (log, Raise AttributeError).
Proof.
  intros Hocc H16 H19. apply contains_spec in Hocc as Hc.
  exists (mkCriterion (boundary_crop_ratio args) (args_loss_mode args)
            (LF_VGGLoss (mkVGGLoss None None))).
  assert (Hinit : VGGLoss_init (args_loss_mode args) = Ok (mkVGGLoss None None)).
  { unfold VGGLoss_init. apply String.eqb_neq in H16, H19. by rewrite H16, H19. }
  split; [unfold Criterion_init; by rewrite Hc, Hinit|]. split; [done|].
  assert (Hlp : String.eqb (args_loss_mode args) "lpips" = false).
  { apply String.eqb_neq. intros Hl. rewrite Hl in Hc. discriminate. }
  intros pred target mask imv log. rewrite !Criterion_forward_unfold.
  simpl loss_mode. simpl loss_func. rewrite Hlp.
  split; [|split].
  - intros t. destruct (Criterion_crop _ pred target) as [[p t']|]; [|done].
    simpl. by apply VGGLoss_no_network.
  - by destruct (Criterion_crop _ pred target) as [[p t']|].
  - intros B Hh W Hr Hp Hwp Ht Hwt. unfold Criterion_crop. simpl crop_ratio.
    apply Qle_bool_iff in Hr. rewrite Hr. simpl. f_equal.
    destruct (VGGLoss_preprocess_rgb pred B Hh W Hp Hwp) as [p' Hp'].
    destruct (VGGLoss_preprocess_rgb target B Hh W Ht Hwt) as [t' Ht'].
    by apply (proj2 (VGGLoss_no_network (mkVGGLoss None None) pred target
                       None 224 eq_refl) p' t' None).
Qed.

Lemma Criterion_unknown_vgg_witness :
  ∃ self,
    Criterion_init (mkArgs 0 0 "vgg11") = Ok self
    ∧ (∀ t, (Criterion_forward self img_a img_b None 0 no_log).2 ≠ Ok t)
    ∧ Criterion_forward self rgb_px rgb_px None 0 no_log
      = (no_log, Raise AttributeError).
Proof.
  destruct (Criterion_unknown_vgg (mkArgs 0 0 "vgg11")) as (self & Hi & _ & Hf).
  - exists "", "11". reflexivity.
  - discriminate.
  - discriminate.
  - exists self. split; [exact Hi|]. split.
    + apply (Hf img_a img_b None 0%Z no_log).
    + by apply (proj2 (proj2 (Hf rgb_px rgb_px None 0%Z no_log)) 1 1 1).
Defined.

(** ** What the networks compute *)

Lemma foldl_Raise (s : Sequential) e :
  foldl (λ h l, h ≫= layer_apply l) (Raise e) s = Raise e.
Proof. induction s as [|l s IH]; simpl; [done | apply IH]. Qed.

Lemma Sequential_forward_app (s1 s2 : Sequential) x :
  Sequential_forward (s1 ++ s2) x
  = Sequential_forward s1 x ≫= Sequential_forward s2.
Proof.
  unfold Sequential_forward. rewrite foldl_app.
  destruct (foldl _ (Ok x) s1) as [h|e]; simpl; [done | apply foldl_Raise].
Qed.

Lemma Sequential_forward_freeze (s : Sequential) x :
  Sequential_forward (freeze_layer <$> s) x = Sequential_forward s x.
Proof.
  unfold Sequential_forward. generalize (Ok x : res (Tensor Q)).
  induction s as [|l s IH]; intros r; simpl; [done | apply IH].
Qed.

Lemma take_prefix_forward (f : list Layer) a b x :
  Sequential_forward (take (a + b) f) x
  = Sequential_forward (take a f) x ≫= Sequential_forward (take b (drop a f)).
Proof. by rewrite <- take_take_drop, Sequential_forward_app. Qed.

Lemma Vgg16_init_slices `{External} n :
  Vgg16_init = Ok n →
  let f := models_vgg16_features true in
  to_relu_1_2 n = freeze_layer <$> take 4 f
  ∧ to_relu_2_2 n = freeze_layer <$> take 5 (drop 4 f)
  ∧ to_relu_3_3 n = freeze_layer <$> take 7 (drop 9 f)
  ∧ to_relu_4_3 n = freeze_layer <$> take 7 (drop 16 f).
Proof.
  unfold Vgg16_init, range. intros Hn.
  apply bind_Ok_inv in Hn as (s1 & H1 & Hn).
  apply bind_Ok_inv in Hn as (s2 & H2 & Hn).
  apply bind_Ok_inv in Hn as (s3 & H3 & Hn).
  apply bind_Ok_inv in Hn as (s4 & H4 & Hn).
  injection Hn as <-.
  apply add_modules_seq_inv in H1 as [-> _], H2 as [-> _], H3 as [-> _], H4 as [-> _].
  done.
Qed.

Lemma Vgg19_init_slices `{External} b n :
  Vgg19_init b = Ok n →
  let f := models_vgg19_features true in
  let g := if b then (λ l, l) else freeze_layer in
  slice1 n = g <$> take 2 f
  ∧ slice2 n = g <$> take 5 (drop 2 f)
  ∧ slice3 n = g <$> take 5 (drop 7 f)
  ∧ slice4 n = g <$> take 9 (drop 12 f)
  ∧ slice5 n = g <$> take 9 (drop 21 f).
Proof.
  unfold Vgg19_init, range. intros Hn.
  apply bind_Ok_inv in Hn as (s1 & H1 & Hn).
  apply bind_Ok_inv in Hn as (s2 & H2 & Hn).
  apply bind_Ok_inv in Hn as (s3 & H3 & Hn).
  apply bind_Ok_inv in Hn as (s4 & H4 & Hn).
  apply bind_Ok_inv in Hn as (s5 & H5 & Hn).
  injection Hn as <-.
  apply add_modules_seq_inv in H1 as [-> _], H2 as [-> _], H3 as [-> _],
    H4 as [-> _], H5 as [-> _].
  destruct b; simpl; by rewrite ?list_fmap_id.
Qed.

(** X9. The feature maps are activations of the pretrained network: the
    four outputs of [Vgg16.forward] are what the first 4, 9, 16 and 23
    modules of [models.vgg16(pretrained=True).features] give on the input,
    the five outputs of [Vgg19.forward] what the first 2, 7, 12, 21 and 30
    modules of the vgg19 stack give; [forward] raises exactly when such a
    prefix raises. *)
Theorem Vgg_forward_prefixes `{External} (x : Tensor Q) :
  (∀ n, Vgg16_init = Ok n →
     let run k := Sequential_forward (take k (models_vgg16_features true)) x in
     Vgg16_forward n x
     = (h1 ← run 4; h2 ← run 9; h3 ← run 16; h4 ← run 23; Ok [h1; h2; h3; h4]))
  ∧ (∀ b n, Vgg19_init b = Ok n →
     let run k := Sequential_forward (take k (models_vgg19_features true)) x in
     Vgg19_forward n x
     = (h1 ← run 2; h2 ← run 7; h3 ← run 12; h4 ← run 21; h5 ← run 30;
        Ok [h1; h2; h3; h4; h5])).
Proof.
  split.
  - intros n Hn run. subst run. cbv beta.
    unfold Vgg16_forward.
    destruct (Vgg16_init_slices n Hn) as (-> & -> & -> & ->).
    rewrite Sequential_forward_freeze. set (f := models_vgg16_features true).
    rewrite (take_prefix_forward f 16 7 x
             : Sequential_forward (take 23 f) x = _).
    rewrite (take_prefix_forward f 9 7 x
             : Sequential_forward (take 16 f) x = _).
    rewrite (take_prefix_forward f 4 5 x
             : Sequential_forward (take 9 f) x = _).
    destruct (Sequential_forward (take 4 f) x) as [h1|]; [|reflexivity].
    rewrite !bind_Ok, Sequential_forward_freeze.
    destruct (Sequential_forward (take 5 (drop 4 f)) h1) as [h2|]; [|reflexivity].
    rewrite !bind_Ok, Sequential_forward_freeze.
    destruct (Sequential_forward (take 7 (drop 9 f)) h2) as [h3|]; [|reflexivity].
    rewrite !bind_Ok, Sequential_forward_freeze.
    destruct (Sequential_forward (take 7 (drop 16 f)) h3); reflexivity.
  - intros b n Hn run. subst run. cbv beta.
    unfold Vgg19_forward.
    destruct (Vgg19_init_slices b n Hn) as (-> & -> & -> & -> & ->).
    assert (Hg : ∀ s h, Sequential_forward
                          ((if b then (λ l, l) else freeze_layer) <$> s) h
                        = Sequential_forward s h).
    { intros s h. destruct b; [by rewrite list_fmap_id|].
      apply Sequential_forward_freeze. }
    rewrite Hg. set (f := models_vgg19_features true).
    rewrite (take_prefix_forward f 21 9 x
             : Sequential_forward (take 30 f) x = _).
    rewrite (take_prefix_forward f 12 9 x
             : Sequential_forward (take 21 f) x = _).
    rewrite (take_prefix_forward f 7 5 x
             : Sequential_forward (take 12 f) x = _).
    rewrite (take_prefix_forward f 2 5 x
             : Sequential_forward (take 7 f) x = _).
    destruct (Sequential_forward (take 2 f) x) as [h1|]; [|reflexivity].
    rewrite !bind_Ok, Hg.
    destruct (Sequential_forward (take 5 (drop 2 f)) h1) as [h2|]; [|reflexivity].
    rewrite !bind_Ok, Hg.
    destruct (Sequential_forward (take 5 (drop 7 f)) h2) as [h3|]; [|reflexivity].
    rewrite !bind_Ok, Hg.
    destruct (Sequential_forward (take 9 (drop 12 f)) h3) as [h4|]; [|reflexivity].
    rewrite !bind_Ok, Hg.
    destruct (Sequential_forward (take 9 (drop 21 f)) h4); reflexivity.
Qed.

Lemma Vgg_forward_prefixes_witness :
  (∃ n, Vgg16_init = Ok n
        ∧ Vgg16_forward n rgb_px
          = (h1 ← Sequential_forward (take 4 (models_vgg16_features true)) rgb_px;
             h2 ← Sequential_forward (take 9 (models_vgg16_features true)) rgb_px;
             h3 ← Sequential_forward (take 16 (models_vgg16_features true)) rgb_px;
             h4 ← Sequential_forward (take 23 (models_vgg16_features true)) rgb_px;
             Ok [h1; h2; h3; h4]))
  ∧ (∃ n, Vgg19_init false = Ok n
        ∧ Vgg19_forward n rgb_px
          = (h1 ← Sequential_forward (take 2 (models_vgg19_features true)) rgb_px;
             h2 ← Sequential_forward (take 7 (models_vgg19_features true)) rgb_px;
             h3 ← Sequential_forward (take 12 (models_vgg19_features true)) rgb_px;
             h4 ← Sequential_forward (take 21 (models_vgg19_features true)) rgb_px;
             h5 ← Sequential_forward (take 30 (models_vgg19_features true)) rgb_px;
             Ok [h1; h2; h3; h4; h5])).
Proof.
  split; eexists; (split; [reflexivity|]).
  - by apply (proj1 (Vgg_forward_prefixes rgb_px)).
  - by apply (proj2 (Vgg_forward_prefixes rgb_px) false).
Defined.

Lemma Sequential_parameters_freeze_values (s : Sequential) :
  value <$> Sequential_parameters (freeze_layer <$> s)
  = value <$> Sequential_parameters s.
Proof.
  unfold Sequential_parameters. induction s as [|l s IH]; [done|].
  rewrite !fmap_cons. cbn [concat]. rewrite !fmap_app, IH. f_equal.
  cbn [freeze_layer layer_params].
  rewrite <- list_fmap_compose. by apply list_fmap_ext.
Qed.

Lemma Vgg19_forward_freeze (n : Vgg19) x :
  Vgg19_forward (Vgg19_freeze n) x = Vgg19_forward n x.
Proof.
  unfold Vgg19_forward, Vgg19_freeze. simpl.
  rewrite Sequential_forward_freeze.
  destruct (Sequential_forward (slice1 n) x) as [h1|]; [|reflexivity].
  rewrite !bind_Ok, Sequential_forward_freeze.
  destruct (Sequential_forward (slice2 n) h1) as [h2|]; [|reflexivity].
  rewrite !bind_Ok, Sequential_forward_freeze.
  destruct (Sequential_forward (slice3 n) h2) as [h3|]; [|reflexivity].
  rewrite !bind_Ok, Sequential_forward_freeze.
  destruct (Sequential_forward (slice4 n) h3) as [h4|]; [|reflexivity].
  rewrite !bind_Ok, Sequential_forward_freeze.
  destruct (Sequential_forward (slice5 n) h4); reflexivity.
Qed.

Lemma Vgg19_init_flag `{External} n1 n2 :
  Vgg19_init true = Ok n1 → Vgg19_init false = Ok n2 → n2 = Vgg19_freeze n1.
Proof.
  unfold Vgg19_init. intros H1 H2.
  destruct (add_modules _ (range 0 2)) as [s1|]; [|done].
  destruct (add_modules _ (range 2 7)) as [s2|]; [|done].
  destruct (add_modules _ (range 7 12)) as [s3|]; [|done].
  destruct (add_modules _ (range 12 21)) as [s4|]; [|done].
  destruct (add_modules _ (range 21 30)) as [s5|]; [|done].
  rewrite !bind_Ok in H1, H2. simpl in H1, H2. congruence.
Qed.

(** X10. [requires_grad] changes flags only: [Vgg19(requires_grad=True)]
    holds the first 30 pretrained modules as they are, and the network built
    with the default [False] has the same parameter values and gives the
    same feature maps (or the same exception) on every input. *)
Theorem Vgg19_requires_grad_flag_only `{External} (n1 n2 : Vgg19) :
  Vgg19_init true = Ok n1 → Vgg19_init false = Ok n2 →
  Vgg19_modules n1 = take 30 (models_vgg19_features true)
  ∧ value <$> Vgg19_parameters n2 = value <$> Vgg19_parameters n1
  ∧ ∀ x, Vgg19_forward n2 x = Vgg19_forward n1 x.
Proof.
  intros H1 H2. rewrite (Vgg19_init_flag n1 n2 H1 H2). split; [|split].
  - destruct (Vgg19_init_slices true n1 H1) as (Ha & Hb & Hc & Hd & He).
    unfold Vgg19_modules. rewrite Ha, Hb, Hc, Hd, He, !list_fmap_id.
    set (f := models_vgg19_features true).
    change (take 2 f) with (take 2 (drop 0 f)).
    rewrite !app_assoc. change (drop 0 f) with f. by rewrite !take_take_drop.
  - unfold Vgg19_parameters, Vgg19_freeze. simpl.
    by rewrite !fmap_app, !Sequential_parameters_freeze_values.
  - intros x. apply Vgg19_forward_freeze.
Qed.

Lemma Vgg19_requires_grad_flag_only_witness :
  ∃ n1 n2,
    Vgg19_init true = Ok n1 ∧ Vgg19_init false = Ok n2
    ∧ Vgg19_modules n1 = take 30 (models_vgg19_features true)
    ∧ value <$> Vgg19_parameters n2 = value <$> Vgg19_parameters n1
    ∧ ∀ x, Vgg19_forward n2 x = Vgg19_forward n1 x.
Proof.
  eexists _, _. split; [reflexivity|]. split; [reflexivity|].
  by apply Vgg19_requires_grad_flag_only.
Defined.

(** ** The log under exceptions *)

(** X11. Whatever [forward] does, returning or raising, in any mode: the
    only keys of [scalar_to_log] it can touch are 'loss_perceptual' and
    'loss_l1'; every other entry is as before. *)
Theorem Criterion_forward_log_frame `{External} self pred target mask imv
    (log : gmap string fval) (k : string) :
  k ≠ "loss_perceptual" → k ≠ "loss_l1" →
  (Criterion_forward self pred target mask imv log).1 !! k = log !! k.
Proof.
  intros Hp Hl. rewrite Criterion_forward_unfold.
  destruct (Criterion_crop self pred target) as [[p t]|]; [|done].
  destruct (String.eqb (loss_mode self) "lpips"); [|done].
  destruct (call_loss_func _ _ _ None) as [l0|]; [|done].
  destruct (item l0) as [vp|]; [|done]. cbv zeta.
  assert (H1 : <["loss_perceptual" := vp]> log !! k = log !! k)
    by (by apply lookup_insert_ne).
  destruct (imv =? 0)%Z; [|exact H1].
  destruct (masked_l1_loss p t mask) as [l1|]; [|exact H1].
  destruct (binop fadd l0 l1) as [r|]; [|exact H1].
  destruct (item l1) as [v1|]; [|exact H1].
  cbn [fst]. etrans; [by apply lookup_insert_ne | exact H1].
Qed.

Lemma Criterion_forward_log_frame_witness :
  (Criterion_forward crit_lpips img_a img_b (Some mask_12) 0 some_log).1 !! "step"
  = some_log !! "step".
Proof. by apply Criterion_forward_log_frame. Defined.

(** X12. An exception does not undo the update of the log: in 'lpips' mode
    with [is_multi_view == 0], when the perceptual term has been computed
    and logged and [masked_l1_loss] then raises, [forward] raises that
    exception and [scalar_to_log] keeps the new 'loss_perceptual', without
    a 'loss_l1' of this call. *)
Theorem Criterion_forward_raises_after_logging `{External} self pred target mask
    (log : gmap string fval) p t perceptual vp e :
  loss_mode self = "lpips" →
  Criterion_crop self pred target = Ok (p, t) →
  call_loss_func (loss_func self) (tmap (λ v, 2 * v - 1)%Q p)
                 (tmap (λ v, 2 * v - 1)%Q t) None = Ok perceptual →
  item perceptual = Ok vp →
  masked_l1_loss p t mask = Raise e →
  Criterion_forward self pred target mask 0 log
  = (<["loss_perceptual" := vp]> log, Raise e).
Proof.
  intros Hm Hc Hl Hv He. rewrite Criterion_forward_unfold, Hc, Hm. simpl String.eqb.
  cbv iota. rewrite Hl, Hv. cbv zeta. simpl Z.eqb. cbv iota. by rewrite He.
Qed.

Lemma Criterion_forward_raises_after_logging_witness :
  ∃ vp,
    Criterion_forward crit_lpips img_a img_b (Some mask_3ch) 0 no_log
    = (<["loss_perceptual" := vp]> no_log, Raise RuntimeError).
Proof.
  eexists.
  eapply (Criterion_forward_raises_after_logging crit_lpips img_a img_b
            (Some mask_3ch) no_log img_a img_b);
    first [reflexivity | vm_compute; reflexivity].
Defined.

(** ** Criterion.__init__ and the call it prepares *)

(** X13. The two attributes [forward] branches on agree on every object
    [__init__] builds: [loss_func] is the LPIPS network exactly when
    [loss_mode] is 'lpips', so the two-argument call is only ever made on
    LPIPS and the masked call never on it; [loss_mode] and [crop_ratio]
    are those of the arguments. *)
Theorem Criterion_init_consistent `{External} (args : Args) (self : Criterion) :
  Criterion_init args = Ok self →
  loss_mode self = args_loss_mode args
  ∧ crop_ratio self = boundary_crop_ratio args
  ∧ (loss_func self = LF_LPIPS ↔ loss_mode self = "lpips")
  ∧ (loss_func self = LF_masked_mse_loss ↔ loss_mode self = "mse")
  ∧ (loss_func self = LF_masked_l1_loss ↔ loss_mode self = "l1")
  ∧ ((∃ v, loss_func self = LF_VGGLoss v) ↔ occurs "vgg" (loss_mode self)).
Proof.
  intros Hi. destruct (Criterion_init_inv _ _ Hi) as (Hr & Hm & Hc).
  split; [done|]. split; [done|]. rewrite <- contains_spec.
  destruct Hc as [(Hv & v & _ & Hf) | [[Hm' Hf] | [[Hm' Hf] | [Hm' Hf]]]];
    rewrite Hf; try rewrite Hm'; try rewrite Hv;
    repeat split; try done; try (intros [? ?]; done); try (by eexists);
    intros Hx; rewrite Hx in Hv; discriminate.
Qed.

Lemma Criterion_init_consistent_witness :
  loss_mode crit_lpips = "lpips"
  ∧ crop_ratio crit_lpips = 0%Q
  ∧ (loss_func crit_lpips = LF_LPIPS ↔ loss_mode crit_lpips = "lpips")
  ∧ (loss_func crit_lpips = LF_masked_mse_loss ↔ loss_mode crit_lpips = "mse")
  ∧ (loss_func crit_lpips = LF_masked_l1_loss ↔ loss_mode crit_lpips = "l1")
  ∧ ((∃ v, loss_func crit_lpips = LF_VGGLoss v) ↔ occurs "vgg" (loss_mode crit_lpips)).
Proof. by apply (Criterion_init_consistent (mkArgs 0 0 "lpips")). Defined.

(** ** normalize_minus_one_to_one: range and order *)

(** X14. A tensor whose largest entry is strictly above the smallest, with
    [2 * (x_max - x_min)] not beyond the largest finite number [fmax] of the
    dtype: every entry of [normalize_minus_one_to_one x] is a finite number
    between -1 and 1, and the order of the entries is kept: a larger input
    entry never gets a smaller output. *)
Theorem normalize_range_and_order (fmax : Q) (x : Tensor Q) lo hi :
  (2 <= fmax)%Q →
  torch_min x = Ok lo → torch_max x = Ok hi → (lo < hi)%Q →
  (2 * (hi - lo) <= fmax)%Q →
  ∃ ys,
    normalize_minus_one_to_one fmax x = Ok (mkTensor (shape x) (Fin <$> ys))
    ∧ length ys = length (data x)
    ∧ Forall (λ y, -1 <= y ∧ y <= 1)%Q ys
    ∧ ∀ i j w1 w2 y1 y2,
        data x !! i = Some w1 → data x !! j = Some w2 →
        ys !! i = Some y1 → ys !! j = Some y2 →
        (w1 <= w2)%Q → (y1 <= y2)%Q.
Proof.
  intros Hf. destruct x as [sh d]. unfold torch_min, torch_max.
  simpl. intros Hlo Hhi Hlt Hr. destruct d as [|v l]; [done|].
  injection Hlo as Hlo. injection Hhi as Hhi. subst lo hi.
  set (lo := Qmin_list v l) in *. set (hi := Qmax_list v l) in *.
  exists (rescale lo hi <$> (v :: l)).
  split; [by apply normalize_in_range|]. split; [|split].
  - by rewrite length_fmap.
  - destruct (rescale_ends lo hi Hlt) as [Hl Hh].
    apply Forall_fmap. eapply Forall_impl; [apply between_min_max|].
    fold lo hi. intros w [Hw1 Hw2]. simpl. split.
    + apply Qle_trans with (rescale lo hi lo); [by rewrite Hl | by apply rescale_mono].
    + apply Qle_trans with (rescale lo hi hi); [by apply rescale_mono | by rewrite Hh].
  - intros i j w1 w2 y1 y2 Hi Hj Hyi Hyj Hw.
    rewrite list_lookup_fmap, Hi in Hyi. rewrite list_lookup_fmap, Hj in Hyj.
    injection Hyi as <-. injection Hyj as <-. by apply rescale_mono.
Qed.

Lemma normalize_range_and_order_witness :
  ∃ ys,
    normalize_minus_one_to_one float32_max img_a
    = Ok (mkTensor (shape img_a) (Fin <$> ys))
    ∧ length ys = length (data img_a)
    ∧ Forall (λ y, -1 <= y ∧ y <= 1)%Q ys
    ∧ ∀ i j w1 w2 y1 y2,
        data img_a !! i = Some w1 → data img_a !! j = Some w2 →
        ys !! i = Some y1 → ys !! j = Some y2 →
        (w1 <= w2)%Q → (y1 <= y2)%Q.
Proof.
  apply (normalize_range_and_order float32_max img_a 1%Q 4%Q);
    [by vm_compute | reflexivity | reflexivity | reflexivity | by vm_compute].
Defined.

(** ** A mask of ones *)

Lemma bshape_channel_mask B C H W : bshape [B; C; H; W] [B; 1; H; W] = Some [B; C; H; W].
Proof.
  simpl.
  repeat match goal with
         | |- context [Nat.eqb ?a ?b] =>
             destruct (Nat.eqb_spec a b); subst; simpl; try lia
         end; done.
Qed.

Lemma Qsum_ones (l : list Q) :
  Forall (λ v, v == 1)%Q l → (Qsum l == inject_Z (Z.of_nat (length l)))%Q.
Proof.
  induction 1 as [|v l Hv _ IH]; [reflexivity|].
  cbn [Qsum foldr length]. fold (Qsum l).
  rewrite Nat2Z.inj_succ, <- Z.add_1_l, inject_Z_plus, Hv, IH. reflexivity.
Qed.

Lemma Qsum_times_ones (e M : list Q) :
  Forall (λ v, v == 1)%Q M → length M = length e →
  (Qsum (zip_with Qmult e M) == Qsum e)%Q.
Proof.
  intros HM. revert e. induction HM as [|m M Hm _ IH]; intros [|a e] Hlen;
    simpl in *; try done.
  fold (Qsum (zip_with Qmult e M)). fold (Qsum e).
  rewrite Hm, IH by lia. ring.
Qed.

Lemma full_mask_value (f : Q → Q → Q) (pred gt mask : Tensor Q) B C H W :
  shape pred = [B; C; H; W] → shape gt = [B; C; H; W] → shape mask = [B; 1; H; W] →
  wf pred → wf gt → wf mask → Forall (λ v, v == 1)%Q (data mask) →
  res_feq (e ← binop f pred gt; n ← shape_at e 1; masked_ratio e mask n)
          (Ok (scalar (fdivQ (Qsum (zip_with f (data pred) (data gt)))
                             (inject_Z (Z.of_nat (length (data pred))) + eps)))).
Proof.
  intros Hp Hg Hm Hwp Hwg Hwm Hones.
  assert (Hs : shape pred = shape gt) by congruence.
  assert (Hb : broadcast_shapes (shape gt) (shape mask) = Some (shape gt)).
  { rewrite Hg, Hm. apply bshape_channel_mask. }
  rewrite masked_on_same_shape by done. rewrite Hg. simpl.
  apply res_feq_scalar. unfold masked_mean, masked_denominator.
  assert (Hlen : length (data pred) = length (data gt)).
  { unfold wf in Hwp, Hwg. by rewrite Hwp, Hwg, Hs. }
  apply fdivQ_feq.
  - apply Qsum_times_ones; [by apply Forall_expand|].
    rewrite length_zip_with_same by done.
    rewrite broadcast_to_length; [unfold wf in Hwp; by rewrite Hwp, Hp | done |].
    rewrite Hm. unfold pad_shape, expandable. simpl.
    repeat (constructor; [first [by left | by right]|]). constructor.
  - rewrite (Qsum_ones _ Hones). unfold wf in Hwp, Hwm. rewrite Hwp, Hwm, Hp, Hm.
    simpl numel. rewrite <- inject_Z_mult, <- Nat2Z.inj_mul.
    assert (Hn : (C * (B * (H * (W * 1) + 0)) = B * (C * (H * (W * 1))))%nat) by lia.
    by rewrite Hn.
Qed.

(** X16. With a one-channel mask of ones over a batch [B;C;H;W], a masked
    loss is the sum of the errors over (the number of entries plus 1e-8):
    the factor [ndim] makes up for the mask being laid out over the
    channels, and the loss differs from the unmasked mean only by the 1e-8
    in the count. *)
Theorem full_mask_is_mean `{External} (pred gt mask : Tensor Q) B C Hh W :
  shape pred = [B; C; Hh; W] → shape gt = [B; C; Hh; W] →
  shape mask = [B; 1; Hh; W] →
  wf pred → wf gt → wf mask → Forall (λ v, v == 1)%Q (data mask) →
  res_feq (masked_mse_loss pred gt (Some mask))
          (Ok (scalar (fdivQ (Qsum (zip_with sq_err (data pred) (data gt)))
                             (inject_Z (Z.of_nat (length (data pred))) + eps))))
  ∧ res_feq (masked_l1_loss pred gt (Some mask))
            (Ok (scalar (fdivQ (Qsum (zip_with abs_err (data pred) (data gt)))
                               (inject_Z (Z.of_nat (length (data pred))) + eps)))).
Proof.
  intros Hp Hg Hm Hwp Hwg Hwm Hones. split.
  - by apply (full_mask_value sq_err pred gt mask B C Hh W).
  - unfold masked_l1_loss, resize_mask_like.
    rewrite decide_False by (rewrite Hp, Hm; by intros ?).
    rewrite bind_Ok. by apply (full_mask_value abs_err pred gt mask B C Hh W).
Qed.

Lemma full_mask_is_mean_witness :
  res_feq (masked_mse_loss img_a img_b (Some ones_12))
          (Ok (scalar (fdivQ (Qsum (zip_with sq_err (data img_a) (data img_b)))
                             (inject_Z (Z.of_nat (length (data img_a))) + eps))))
  ∧ res_feq (masked_l1_loss img_a img_b (Some ones_12))
            (Ok (scalar (fdivQ (Qsum (zip_with abs_err (data img_a) (data img_b)))
                               (inject_Z (Z.of_nat (length (data img_a))) + eps)))).
Proof.
  apply (full_mask_is_mean img_a img_b ones_12 1 2 1 2); try reflexivity.
  repeat constructor.
Defined.
